(** * A set-encoded knapsack evolved with DEAP: the code of knapsack.py

    The development embeds [src/knapsack.py] shallowly.

    - Python integers are [Z]; item indices, weights and seeds are integers.
    - Python floats (item values, probabilities, statistics) are read as exact
      rationals [Q]: [==] is [Qeq_bool], [<] is [Qltb]. Where the code
      depends on the rounding of binary64 arithmetic it is modelled with
      it: the quotient and the difference that [main] rounds to one
      decimal are computed on primitive floats, and the means of the
      aggregation and their comparisons belong to an interface ([NumPy])
      that exact arithmetic and binary64 both implement.
    - A Python [set] of integers is a [gset Z], a [dict] from integers is a
      [gmap Z _]. Individuals are mutable objects: they live in a store
      (a list of sets addressed by position) and the operators receive
      references, so that two arguments may be the same object.
    - The module [random] is an interface ([PyRandom]): a hidden generator
      state, threaded through every call that draws from it.
    - Exceptions are values ([Raise e]); a function that can raise returns an
      [outcome].
    - A set is iterated in the order of [elements]; no statement depends on
      which order that is.

    DEAP is not part of the sources. Its [initRepeat] and [clone] are
    one-liners on the store; its evolution loop, its selector and its
    dominance test are modelled from the specification and marked so. The
    CSV file, the printed report, the hall of fame and the registrations
    of the toolbox have no part in any statement and are left out. *)

From Stdlib Require Import Floats.
From Stdlib Require Import ZArith QArith Qabs Qround Lia Lqa List.
From stdpp Require Import base tactics option list sorting gmap sets.

#[local] Set Warnings "-inexact-float".

Local Open Scope Z_scope.

(** ** Exceptions and outcomes *)

Inductive exn : Type :=
| KeyError      (* dict lookup or set.remove of an absent key *)
| IndexError    (* random.choice of an empty sequence *)
| ValueError    (* randrange of an empty range, max of an empty sequence *)
| TypeError     (* arithmetic or subscript on None *)
| BadReference. (* model only: a reference to no object of the store *)

Inductive outcome (A : Type) : Type :=
| Ok (a : A)
| Raise (e : exn).
Arguments Ok {A} a.
Arguments Raise {A} e.

Definition is_Ok {A} (o : outcome A) : Prop := ∃ a, o = Ok a.

#[global] Instance outcome_ret : MRet outcome := λ A a, Ok a.
#[global] Instance outcome_bind : MBind outcome := λ A B f o,
  match o with
  | Ok a => f a
  | Raise e => Raise e
  end.
#[global] Instance outcome_fmap : FMap outcome := λ A B f o,
  match o with
  | Ok a => Ok (f a)
  | Raise e => Raise e
  end.

(** ** Numbers *)

Definition Qltb (x y : Q) : bool := negb (Qle_bool y x).

(** Python's [sum]: starts from the integer 0 and adds from the left. *)
Definition sum_int (l : list Z) : Z := fold_left Z.add l 0.
Definition sum_float (l : list Q) : Q := fold_left Qplus l (0 : Q).

(** Binary64. [float_of_int] is Python's conversion of an integer, exact
    below [2^53]; [float_of_Q] is the float closest to a rational whose
    numerator and denominator are below [2^53], the float that a decimal
    literal denotes; [Q_of_float] is the exact value of a finite float. *)
Definition float_of_int (z : Z) : float :=
  if z <? 0 then PrimFloat.opp (PrimFloat.of_uint63 (Uint63.of_Z (- z)))
  else PrimFloat.of_uint63 (Uint63.of_Z z).

Definition float_of_Q (q : Q) : float :=
  PrimFloat.div (float_of_int (Qnum q)) (float_of_int (Zpos (Qden q))).

Definition Q_of_float (x : float) : Q :=
  match Prim2SF x with
  | S754_finite s m e =>
      (inject_Z (if s then Zneg m else Zpos m) * Qpower 2 e)%Q
  | _ => 0%Q
  end.

(** ** The module [random]

    [G] is the hidden state of the generator. [seed_state s] is the state
    after [random.seed(s)]; [next_random] is one call of [random.random()],
    a float in [0, 1); [randbelow n] is the generator's draw of an integer
    below [n], on which [randrange], [randint] and [choice] are built. *)

Class PyRandom (G : Type) : Type := {
  seed_state : Z → G;
  next_random : G → Q * G;
  randbelow : Z → G → Z * G;
  next_random_range : ∀ g, (0 <= (next_random g).1)%Q ∧ ((next_random g).1 < 1)%Q;
  randbelow_range : ∀ n g, 0 < n → 0 ≤ (randbelow n g).1 < n
}.

(** ** The store of individuals and the state of a computation *)

Definition ref := nat.

Record world (G : Type) : Type := World {
  heap : list (gset Z);
  rng : G
}.
Arguments World {G} heap rng.
Arguments heap {G} w.
Arguments rng {G} w.

(** A computation reads and updates the store and the generator, and
    returns a value or raises. *)
Definition Py (G A : Type) : Type := world G → outcome (A * world G).

#[global] Instance Py_ret {G} : MRet (Py G) := λ A a w, Ok (a, w).
#[global] Instance Py_bind {G} : MBind (Py G) := λ A B f m w,
  match m w with
  | Ok (a, w') => f a w'
  | Raise e => Raise e
  end.

Definition raise {G A} (e : exn) : Py G A := λ _, Raise e.

(** A pure computation that may raise, run inside [Py]. *)
Definition lift {G A} (o : outcome A) : Py G A := λ w,
  match o with
  | Ok a => Ok (a, w)
  | Raise e => Raise e
  end.

Section Primitives.
Context {G : Type} `{!PyRandom G}.

(** [random.seed(s)] *)
Definition random_seed (s : Z) : Py G () := λ w,
  Ok ((), World (heap w) (seed_state s)).

(** [random.random()] *)
Definition random_random : Py G Q := λ w,
  let '(u, g) := next_random (rng w) in Ok (u, World (heap w) g).

(** [random.randrange(n)] *)
Definition randrange (n : Z) : Py G Z := λ w,
  if n <=? 0 then Raise ValueError
  else let '(k, g) := randbelow n (rng w) in Ok (k, World (heap w) g).

(** [random.randint(a, b)] is [randrange(a, b+1)]. *)
Definition randint (a b : Z) : Py G Z :=
  k ← randrange (b - a + 1); mret (a + k).

(** [random.uniform(a, b)] is [a + (b-a) * random()]. *)
Definition uniform (a b : Q) : Py G Q :=
  u ← random_random; mret (a + (b - a) * u)%Q.

(** [random.choice(seq)] is [seq[randbelow(len(seq))]]. *)
Definition choice {A} (l : list A) : Py G A := λ w,
  match l with
  | [] => Raise IndexError
  | _ =>
      let '(k, g) := randbelow (Z.of_nat (length l)) (rng w) in
      match l !! Z.to_nat k with
      | Some x => Ok (x, World (heap w) g)
      | None => Raise IndexError
      end
  end.

(** Reading the set an individual currently holds. *)
Definition deref (r : ref) : Py G (gset Z) := λ w,
  match heap w !! r with
  | Some s => Ok (s, w)
  | None => Raise BadReference
  end.

(** In-place update of an individual. *)
Definition assign (r : ref) (s : gset Z) : Py G () := λ w,
  match heap w !! r with
  | Some _ => Ok ((), World (<[r := s]> (heap w)) (rng w))
  | None => Raise BadReference
  end.

(** A new object holding [s]. *)
Definition alloc (s : gset Z) : Py G ref := λ w,
  Ok (length (heap w), World (heap w ++ [s]) (rng w)).
End Primitives.

(** ** Constants of knapsack.py *)

Definition IND_INIT_SIZE : nat := 5.
Definition MAX_ITEM : Z := 50.
Definition MAX_WEIGHT : Z := 50.
Definition NBR_ITEMS : Z := 20.

(** ** Fitness evaluation *)

(** [len(s)] of a set, as a Python integer. *)
Definition len (s : gset Z) : Z := Z.of_nat (size s).

(** [items[item]]: KeyError when the key is absent. *)
Definition getitem (items : gmap Z (Z * Q)) (item : Z) : outcome (Z * Q) :=
  match items !! item with
  | Some wv => Ok wv
  | None => Raise KeyError
  end.

(** The penalty fitness of an overweight or oversized individual. *)
Definition penalty : Z * Q := (10000, 0%Q).

(** [evalKnapsack(individual, items)], knapsack.py lines 39-46. The two
    generator expressions iterate the set in its iteration order,
    [elements individual]. *)
Definition evalKnapsack (individual : gset Z) (items : gmap Z (Z * Q))
  : outcome (Z * Q) :=
  ws ← mapM (λ item, fst <$> getitem items item) (elements individual);
  let weight := sum_int ws in
  vs ← mapM (λ item, snd <$> getitem items item) (elements individual);
  let value := sum_float vs in
  if (MAX_ITEM <? len individual) || (MAX_WEIGHT <? weight)
  then Ok penalty
  else Ok (weight, value).

(** The weight and the value an item table gives an index, and the two
    sums over the members of an individual. *)
Definition item_weight (items : gmap Z (Z * Q)) (i : Z) : Z :=
  match items !! i with Some wv => wv.1 | None => 0 end.
Definition item_value (items : gmap Z (Z * Q)) (i : Z) : Q :=
  match items !! i with Some wv => wv.2 | None => 0%Q end.
Definition total_weight (individual : gset Z) (items : gmap Z (Z * Q)) : Z :=
  sum_int (item_weight items <$> elements individual).
Definition total_value (individual : gset Z) (items : gmap Z (Z * Q)) : Q :=
  sum_float (item_value items <$> elements individual).

(** ** Item generation *)

Section Program.
Context {G : Type} `{!PyRandom G}.

(** [create_items(seed)], knapsack.py lines 28-37: reseeds, then draws
    a weight and a value for each index of [range(NBR_ITEMS)]. *)
Definition create_items (seed : Z) : Py G (gmap Z (Z * Q)) :=
  _ ← random_seed seed;
  kvs ← mapM (λ i, w ← randint 1 10;
                   v ← uniform 0 100;
                   mret (i, (w, v)))
             (seqZ 0 NBR_ITEMS);
  mret (foldl (λ (d : gmap Z (Z * Q)) kv, <[kv.1 := kv.2]> d) ∅ kvs).

(** ** Variation operators *)

(** [a ^ b] on sets. *)
Definition sym_diff (a b : gset Z) : gset Z := (a ∖ b) ∪ (b ∖ a).

(** [cxSet(ind1, ind2)], knapsack.py lines 48-53. [temp] is a copy of
    the first set; the two augmented assignments update the objects the
    arguments refer to, which may be one and the same object. *)
Definition cxSet (ind1 ind2 : ref) : Py G (ref * ref) :=
  temp ← deref ind1;
  a ← deref ind1; b ← deref ind2;
  _ ← assign ind1 (a ∩ b);
  b' ← deref ind2;
  _ ← assign ind2 (sym_diff b' temp);
  mret (ind1, ind2).

(** [sorted(tuple(s))] *)
Definition sorted (s : gset Z) : list Z := merge_sort Z.le (elements s).

(** [s.remove(x)]: KeyError when [x] is not a member. *)
Definition set_remove (r : ref) (x : Z) : Py G () :=
  s ← deref r;
  if decide (x ∈ s) then assign r (s ∖ {[x]}) else raise KeyError.

(** [s.add(x)] *)
Definition set_add (r : ref) (x : Z) : Py G () :=
  s ← deref r; assign r (s ∪ {[x]}).

(** [mutSet(individual)], knapsack.py lines 55-62; the 1-tuple it
    returns is its only component. *)
Definition mutSet (individual : ref) : Py G ref :=
  u ← random_random;
  _ ← (if Qltb u (1 # 2) then
         s ← deref individual;
         if decide (s ≠ ∅) then
           x ← choice (sorted s);
           set_remove individual x
         else mret ()
       else
         j ← randrange NBR_ITEMS;
         set_add individual j);
  mret individual.

(** ** Initial population, knapsack.py lines 77-80 and 92 *)

(** [toolbox.individual()]: [initRepeat] calls [attr_item], that is
    [random.randrange(NBR_ITEMS)], [IND_INIT_SIZE] times and builds a set
    of the draws. *)
Definition individual : Py G ref :=
  xs ← mapM (λ _, randrange NBR_ITEMS) (seq 0 IND_INIT_SIZE);
  alloc (list_to_set xs).

(** [toolbox.population(n)]: a list of [n] individuals. *)
Definition population (n : nat) : Py G (list ref) :=
  mapM (λ _, individual) (seq 0 n).

(** [toolbox.evaluate], line 83: [lambda ind: evalKnapsack(ind, items)]. *)
Definition evaluate (items : gmap Z (Z * Q)) (ind : ref) : Py G (Z * Q) :=
  s ← deref ind; lift (evalKnapsack s items).

(** ** The evolution loop *)

(** [toolbox.clone]: a new object with the same members. *)
Definition clone (ind : ref) : Py G ref :=
  s ← deref ind; alloc s.

(** An individual of the population, with the fitness it was given. *)
Definition scored : Type := ref * (Z * Q).

(** Modelled from the spec: the production of offspring of the Evolution
    Loop ([algorithms.varOr] of DEAP is not in src/). Two parents are drawn
    with replacement from the population and cloned; with probability
    [cxpb] the clones are crossed; each resulting clone is, independently,
    mutated with probability [mutpb]; both are offspring. *)
Definition vary_pair (pop : list scored) (cxpb mutpb : Q) : Py G (list ref) :=
  p1 ← choice pop;
  p2 ← choice pop;
  c1 ← clone p1.1;
  c2 ← clone p2.1;
  u ← random_random;
  cs ← (if Qltb u cxpb then cxSet c1 c2 else mret (c1, c2));
  u1 ← random_random;
  o1 ← (if Qltb u1 mutpb then mutSet cs.1 else mret cs.1);
  u2 ← random_random;
  o2 ← (if Qltb u2 mutpb then mutSet cs.2 else mret cs.2);
  mret [o1; o2].

(** Modelled from the spec: [n] offspring, produced by repeating
    [vary_pair]. *)
Fixpoint offspring (n : nat) (pop : list scored) (cxpb mutpb : Q)
  : Py G (list ref) :=
  match n with
  | O => mret []
  | S O => pair ← vary_pair pop cxpb mutpb; mret (take 1 pair)
  | S (S n') =>
      pair ← vary_pair pop cxpb mutpb;
      rest ← offspring n' pop cxpb mutpb;
      mret (pair ++ rest)
  end.

(** Evaluation of a list of individuals, in order. *)
Definition evaluate_all (items : gmap Z (Z * Q)) (inds : list ref)
  : Py G (list scored) :=
  mapM (λ ind, fit ← evaluate items ind; mret (ind, fit)) inds.
End Program.

(** Modelled from the spec: the Multi-Objective Selector
    ([tools.selNSGA2] of DEAP is not in src/), by its contract: from a
    pool of evaluated individuals it selects exactly [k] survivors, all of
    them members of the pool. *)
Class Selector : Type := {
  select : list scored → nat → list scored;
  select_length : ∀ pool k, (k ≤ length pool)%nat → length (select pool k) = k;
  select_sub : ∀ pool k, select pool k ⊆ pool
}.

(** Modelled from the spec: dominance between fitness tuples
    ([Fitness.dominates] of DEAP is not in src/), with the weights
    [(-1.0, 1.0)] of lines 10-13: [a] dominates [b] when it is no worse on
    both objectives (weight minimized, value maximized) and strictly
    better on one. *)
Definition dominates (a b : Z * Q) : bool :=
  (a.1 <=? b.1) && Qle_bool b.2 a.2 && ((a.1 <? b.1) || Qltb b.2 a.2).

(** A Generation Record: the generation index and the [max] statistic,
    the column-wise maximum of the population's fitness tuples. The
    [avg], [std] and [min] columns, which [run_ea] never reads, are left
    out. *)
Record record : Type := Record_ {
  gen : nat;
  max : Z * Q
}.

Definition qmax (x y : Q) : Q := if Qltb x y then y else x.

(** [np.max(fits, axis=0)]: ValueError on an empty population. *)
Definition stats_max (fits : list (Z * Q)) : outcome (Z * Q) :=
  match fits with
  | [] => Raise ValueError
  | f :: fs => Ok (foldl Z.max f.1 fs.*1, foldl qmax f.2 fs.*2)
  end.

(** Python's [max] of a list: the first maximal element, ValueError on
    an empty list. *)
Definition py_max (l : list Q) : outcome Q :=
  match l with
  | [] => Raise ValueError
  | x :: l' => Ok (foldl qmax x l')
  end.

Definition NGEN : nat := 100.
Definition MU : nat := 50.
Definition LAMBDA : nat := 100.

Section Run.
Context {G : Type} `{!PyRandom G} `{!Selector}.

Definition compile (g : nat) (pop : list scored) : Py G record :=
  m ← lift (stats_max pop.*2); mret (Record_ g m).

(** Modelled from the spec: one generation step of the Evolution Loop.
    [lambda_] offspring are produced and evaluated, the selector keeps
    [mu] of the pool of population and offspring, and a record is
    computed over the new population. *)
Definition generation (items : gmap Z (Z * Q)) (mu lambda_ : nat)
    (cxpb mutpb : Q) (g : nat) (pop : list scored)
  : Py G (list scored * record) :=
  kids ← offspring lambda_ pop cxpb mutpb;
  kids' ← evaluate_all items kids;
  let pop' := select (pop ++ kids') mu in
  r ← compile g pop';
  mret (pop', r).

(** [n] generation steps, the first one numbered [g]. *)
Fixpoint generations (items : gmap Z (Z * Q)) (mu lambda_ : nat)
    (cxpb mutpb : Q) (n g : nat) (pop : list scored)
  : Py G (list scored * list record) :=
  match n with
  | O => mret (pop, [])
  | S n' =>
      pr ← generation items mu lambda_ cxpb mutpb g pop;
      prs ← generations items mu lambda_ cxpb mutpb n' (S g) pr.1;
      mret (prs.1, pr.2 :: prs.2)
  end.

(** Modelled from the spec: the Evolution Loop
    ([algorithms.eaMuPlusLambda] of DEAP is not in src/). The initial
    population is evaluated and recorded as generation 0; [ngen]
    generation steps follow, numbered from 1. It returns the final
    population and the Logbook. *)
Definition eaMuPlusLambda (items : gmap Z (Z * Q)) (pop : list ref)
    (mu lambda_ : nat) (cxpb mutpb : Q) (ngen : nat)
  : Py G (list scored * list record) :=
  pop0 ← evaluate_all items pop;
  r0 ← compile 0 pop0;
  prs ← generations items mu lambda_ cxpb mutpb ngen 1 pop0;
  mret (prs.1, r0 :: prs.2).

(** ** One run, knapsack.py lines 65-123 *)

(** Lines 70-107: seeding, items, population and the loop. *)
Definition evolve (cxpb mutpb : Q) (seed : Z)
  : Py G (list scored * list record) :=
  _ ← random_seed seed;
  items ← create_items seed;
  pop ← population MU;
  eaMuPlusLambda items pop MU LAMBDA cxpb mutpb NGEN.

(** Lines 109-123: the Run Result read off the records of the Logbook.
    [earliest_generation] stays [None] when no record compares equal. *)
Definition run_result (records : list record) : outcome (option nat * Q) :=
  let all_max_values := (λ entry, (max entry).2) <$> records in
  overall_max_value ← py_max all_max_values;
  let earliest_generation :=
    gen <$> List.find (λ entry, Qeq_bool (max entry).2 overall_max_value)
                      records in
  Ok (earliest_generation, overall_max_value).

(** The individuals of a run are created by the run and are out of reach
    once it returns: its store starts empty and is dropped at the end.
    The generator is the one of the module [random], shared by all runs. *)
Definition fresh_store {A} (m : Py G A) : Py G A := λ w,
  match m (World [] (rng w)) with
  | Ok (a, w') => Ok (a, World (heap w) (rng w'))
  | Raise e => Raise e
  end.

Definition run_ea (cxpb mutpb : Q) (seed : Z) : Py G (option nat * Q) :=
  fresh_store (logbook ← evolve cxpb mutpb seed;
               lift (run_result logbook.2)).
End Run.

(** ** The sweep, knapsack.py lines 126-145 *)

(** The multiple of one tenth nearest to [x], a tie going to the even
    one. *)
Definition nearest_tenth (x : Q) : Q :=
  let y := (x * 10)%Q in
  let f := Qfloor y in
  let d := (y - inject_Z f)%Q in
  let n := if Qltb d (1 # 2) then f
           else if Qltb (1 # 2) d then f + 1
           else if Z.even f then f else f + 1 in
  n # 10.

(** Python's [round(x, 1)] on a finite float: the exact value of [x] is
    rounded to the nearest tenth, and the result is the float closest to
    that tenth. The model names this float by the tenth, which is how
    Python prints it and how the rows are written. *)
Definition round1 (x : float) : Q := nearest_tenth (Q_of_float x).

(** A Sweep Row: [[seed, cxpb, mutpb, earliest_gen, max_val]]. *)
Record row : Type := Row {
  row_seed : Z;
  row_cxpb : Q;
  row_mutpb : Q;
  row_earliest_gen : option nat;
  row_max_val : Q
}.

Section Sweep.
Context {G : Type} `{!PyRandom G} `{!Selector}.

(** The body of the inner loop, lines 135-145. *)
Definition sweep_cell (seed i : Z) : Py G row :=
  let cxpb := round1 (float_of_int i / 10) in
  let mutpb := round1 (1 - float_of_int i / 10) in
  res ← run_ea cxpb mutpb seed;
  mret (Row seed cxpb mutpb res.1 res.2).

(** The inner loop for one seed: [i] in [range(11)]. *)
Definition sweep_seed (seed : Z) : Py G (list row) :=
  mapM (sweep_cell seed) (seqZ 0 11).

(** The two nested loops: [seed] in [range(1, 30)], then [i]; the rows
    are appended in the order of the runs. *)
Definition sweep : Py G (list row) :=
  rows ← mapM sweep_seed (seqZ 1 29);
  mret (concat rows).
End Sweep.

(** ** The aggregation, knapsack.py lines 161-194 *)

(** A probability pair, the key of [combos_dict]; two keys are the same
    when both components compare equal. *)
Definition combo : Type := Q * Q.

Definition combo_eqb (a b : combo) : bool :=
  Qeq_bool a.1 b.1 && Qeq_bool a.2 b.2.

(** [combos_dict[key].append(x)] on a [defaultdict(list)]: a dictionary
    keeps its keys in the order of their first insertion. *)
Fixpoint dict_append (key : combo) (x : option nat * Q)
    (d : list (combo * list (option nat * Q)))
  : list (combo * list (option nat * Q)) :=
  match d with
  | [] => [(key, [x])]
  | (k, xs) :: d' =>
      if combo_eqb k key then (k, xs ++ [x]) :: d'
      else (k, xs) :: dict_append key x d'
  end.

(** Lines 161-164. *)
Definition group_rows (results : list row)
  : list (combo * list (option nat * Q)) :=
  foldl (λ d r, dict_append (row_cxpb r, row_mutpb r)
                            (row_earliest_gen r, row_max_val r) d)
        [] results.

(** What the aggregation needs of NumPy and of float arithmetic: the
    mean of a list of numbers, the comparison [a < b] of two means
    ([a > b] is [f_lt b a]) and the test [abs(a - b) < 1e-9]. The order
    in which [np.mean] adds is NumPy's; nothing is assumed of it. *)
Class NumPy (F : Type) : Type := {
  np_mean : list Q → F;
  f_lt : F → F → bool;
  within_tol : F → F → bool
}.

(** The quotient of the sum by the length, in exact arithmetic. *)
Definition mean (l : list Q) : Q :=
  (sum_float l / inject_Z (Z.of_nat (length l)))%Q.

Definition tolerance : Q := 1 # 1000000000.

Section Aggregation.
Context {F : Type} `{!NumPy F}.

(** [np.mean] of the generations: TypeError when one of them is None. *)
Definition mean_gen (l : list (option nat)) : outcome F :=
  gs ← mapM (λ o, match o with
                  | Some g => Ok (inject_Z (Z.of_nat g))
                  | None => Raise TypeError
                  end) l;
  Ok (np_mean gs).

(** The three variables of the search: [best_combo],
    [best_combo_avg_max_val] and [best_combo_avg_gen]. [None] is their
    initial state: no combination, [float("-inf")], no generation. *)
Definition best : Type := option (combo * F * F).

(** One iteration of the loop of lines 170-186. Against the initial
    [-inf] the first test succeeds. *)
Definition best_step (b : best) (entry : combo * list (option nat * Q))
  : outcome best :=
  let '(c, runs_list) := entry in
  avg_gen ← mean_gen runs_list.*1;
  let avg_val := np_mean runs_list.*2 in
  match b with
  | None => Ok (Some (c, avg_val, avg_gen))
  | Some (best_combo, best_combo_avg_max_val, best_combo_avg_gen) =>
      if f_lt best_combo_avg_max_val avg_val then
        Ok (Some (c, avg_val, avg_gen))
      else if within_tol avg_val best_combo_avg_max_val then
        if f_lt avg_gen best_combo_avg_gen then
          Ok (Some (c, avg_val, avg_gen))
        else Ok b
      else Ok b
  end.

Fixpoint best_scan (b : best) (d : list (combo * list (option nat * Q)))
  : outcome best :=
  match d with
  | [] => Ok b
  | entry :: d' => b' ← best_step b entry; best_scan b' d'
  end.

(** Lines 161-194: the winning pair and its two means. With no row at
    all [best_combo] is still None when it is subscripted. *)
Definition aggregate (results : list row) : outcome (combo * F * F) :=
  b ← best_scan None (group_rows results);
  match b with
  | Some r => Ok r
  | None => Raise TypeError
  end.
End Aggregation.

Section Main.
Context {G : Type} `{!PyRandom G} `{!Selector} {F : Type} `{!NumPy F}.

(** [main()]: the sweep, then the aggregation; it returns [best_combo]. *)
Definition main : Py G combo :=
  results ← sweep;
  r ← lift (aggregate results);
  mret r.1.1.
End Main.

(** ** The analysis scripts, analysis.py and analysis-top-5.py *)

(** [df.groupby("seed")["max_value"].max()], line 13 (line 9 of the
    second script): for each seed of the table, the largest [max_value]
    among its rows. *)
Definition max_values_per_seed (df : list row) : gmap Z Q :=
  foldl (λ (m : gmap Z Q) r,
           match m !! row_seed r with
           | Some v => <[row_seed r := qmax v (row_max_val r)]> m
           | None => <[row_seed r := row_max_val r]> m
           end) ∅ df.

(** [calculate_performance(row)], lines 16-19 (12-15 of the second
    script); the series it reads is the global [max_values_per_seed], and
    subscripting it with an absent seed raises KeyError. *)
Definition calculate_performance (max_values : gmap Z Q) (r : row)
  : outcome (option nat) :=
  match max_values !! row_seed r with
  | None => Raise KeyError
  | Some m =>
      if Qltb (row_max_val r) m then Ok (Some 100%nat)
      else Ok (row_earliest_gen r)
  end.

(** [df["performance"] = df.apply(calculate_performance, axis=1)]. On a
    table with no row [apply] returns an empty frame instead of a column
    and the assignment raises ValueError. *)
Definition performance (df : list row) : outcome (list (option nat)) :=
  match df with
  | [] => Raise ValueError
  | _ :: _ => mapM (calculate_performance (max_values_per_seed df)) df
  end.

(** ** Two instances of the interfaces *)

(** A linear congruential generator. *)
Definition lcg_next (s : Z) : Z := (s * 1103515245 + 12345) mod 2147483648.

Definition lcg : PyRandom Z.
Proof.
  refine {| seed_state := λ s, s;
            next_random := λ g, ((g mod 1000) # 1000, lcg_next g);
            randbelow := λ n g, (g mod n, lcg_next g) |}.
  - intros g. cbn. pose proof (Z.mod_pos_bound g 1000 eq_refl) as Hb.
    unfold Qle, Qlt. cbn. lia.
  - intros n g Hn. cbn. apply Z.mod_pos_bound. exact Hn.
Defined.

(** The selector that keeps the head of the pool. *)
Definition take_selector : Selector.
Proof.
  refine {| select := λ pool k, take k pool |}.
  - intros pool k Hk. rewrite length_take. lia.
  - intros pool k x Hx. apply elem_of_take in Hx as (i & Hx & _).
    eapply list_elem_of_lookup_2, Hx.
Defined.

(** Exact arithmetic: the mean is the quotient of the sum by the length
    and the tolerance is [10^-9]. *)
Definition exact : NumPy Q :=
  {| np_mean := mean;
     f_lt := Qltb;
     within_tol := λ a b, Qltb (Qabs (a - b)) tolerance |}.

(** Binary64: the numbers of a list are the floats closest to them, the
    mean adds them from the left and divides by the length, and [1e-9]
    is the float of that literal. On a list of one or two numbers the
    mean is the same whatever the order of the additions. *)
Definition binary64 : NumPy float :=
  {| np_mean := λ l, (fold_left PrimFloat.add (float_of_Q <$> l) 0
                      / float_of_int (Z.of_nat (length l)))%float;
     f_lt := PrimFloat.ltb;
     within_tol := λ a b, (PrimFloat.abs (a - b) <? 1e-9)%float |}.

(** ** Vocabulary of the statements *)

(** [m] run from [w] returns a value and a state that satisfy [Q]: it
    does not raise. *)
Definition returns {G A} (m : Py G A) (w : world G)
    (Q : A → world G → Prop) : Prop :=
  ∃ a w', m w = Ok (a, w') ∧ Q a w'.

(** The members of [s] are item indices: [s] is a subset of [0, 20). *)
Definition in_range (s : gset Z) : Prop := ∀ x, x ∈ s → 0 ≤ x < NBR_ITEMS.

(** The full-universe individual. *)
Definition universe : gset Z := list_to_set (seqZ 0 NBR_ITEMS).

(** The probability pairs of the sweep for one seed, and the whole grid
    of runs, seed by seed. *)
Definition row_key (r : row) : Z * Q * Q := (row_seed r, row_cxpb r, row_mutpb r).

Definition grid_seed (seed : Z) : list (Z * Q * Q) :=
  (λ i, (seed, Qmake i 10, Qmake (10 - i) 10)) <$> seqZ 0 11.

Definition grid : list (Z * Q * Q) := concat (grid_seed <$> seqZ 1 29).

(** The pair of a row and what [combos_dict] stores of it. *)
Definition row_combo (r : row) : combo := (row_cxpb r, row_mutpb r).
Definition row_run (r : row) : option nat * Q :=
  (row_earliest_gen r, row_max_val r).

(** The runs of the rows whose pair is [k], in the order of the rows. *)
Definition members (k : combo) (results : list row) : list (option nat * Q) :=
  row_run <$> filter (λ r, combo_eqb k (row_combo r) = true) results.

(** The grouping: each entry holds the runs of the rows of its pair, no
    two entries have the same pair, and every row is in an entry. *)
Definition grouped (d : list (combo * list (option nat * Q)))
    (results : list row) : Prop :=
  Forall (λ e, e.2 = members e.1 results ∧ e.2 ≠ []) d ∧
  (∀ i j e e', d !! i = Some e → d !! j = Some e' →
               combo_eqb e.1 e'.1 = true → i = j) ∧
  (∀ r, r ∈ results → ∃ e, e ∈ d ∧ combo_eqb e.1 (row_combo r) = true).


(** A group's summary: its pair, its mean [max_value] and its mean
    [earliest_generation]. *)
Definition summary (F : Type) : Type := combo * F * F.

Definition gen_float (o : option nat) : Q :=
  match o with Some g => inject_Z (Z.of_nat g) | None => 0%Q end.

Section Summaries.
Context {F : Type} `{!NumPy F}.

Definition summarize (entry : combo * list (option nat * Q)) : summary F :=
  (entry.1, np_mean entry.2.*2, np_mean (gen_float <$> entry.2.*1)).

Definition summaries (results : list row) : list (summary F) :=
  summarize <$> group_rows results.

(** The test of lines 177-186: does the group [s] replace the best [b]?
    It does when its mean value is greater, or else when the two mean
    values are within the tolerance and its mean generation is lower. *)
Definition replaces (b s : summary F) : bool :=
  f_lt b.1.2 s.1.2 ||
  (within_tol s.1.2 b.1.2 && f_lt s.2 b.2).

Definition pick (b : option (summary F)) (s : summary F) : option (summary F) :=
  match b with
  | None => Some s
  | Some b0 => if replaces b0 s then Some s else b
  end.

(** The values of [vs] are numbers, none of them NaN or infinite: among
    them [<] is a strict weak order, and two values of which neither is
    below the other pass the tolerance test. *)
Definition numbers (vs : list F) : Prop :=
  Forall (λ a,
    f_lt a a = false ∧
    Forall (λ b,
      (f_lt a b = false → f_lt b a = false → within_tol a b = true) ∧
      Forall (λ c,
        (f_lt a b = true → f_lt b c = true → f_lt a c = true) ∧
        (f_lt a b = false → f_lt b c = false → f_lt a c = false)) vs) vs) vs.



End Summaries.

(** Two groups of one run each, whose mean values 80 and 80.0000000001
    are within the tolerance; the first has the lower generation. *)
Definition near_tie : list row :=
  [ Row 1 (1 # 10) (9 # 10) (Some 5%nat) 80;
    Row 1 (2 # 10) (8 # 10) (Some 10%nat) (800000000001 # 10000000000) ].


(** The pairs of a dictionary of runs with the number of runs of each,
    and [dict_append] seen on these numbers only. *)
Definition dict_shape (d : list (combo * list (option nat * Q)))
  : list (combo * nat) :=
  (λ e, (e.1, length e.2)) <$> d.

Fixpoint dict_count (key : combo) (d : list (combo * nat))
  : list (combo * nat) :=
  match d with
  | [] => [(key, 1%nat)]
  | (k, n) :: d' =>
      if combo_eqb k key then (k, S n) :: d'
      else (k, n) :: dict_count key d'
  end.

(** The eleven probability pairs of the sweep, in the order of [i]. *)
Definition grid_pairs : list combo :=
  (λ i, (Qmake i 10, Qmake (10 - i) 10)) <$> seqZ 0 11.

(** [m] neither reads nor writes the store: run on any store it does
    what it does on the empty one, and hands the store back. *)
Definition store_free {G A} (m : Py G A) : Prop :=
  ∀ h g, m (World h g) =
         match m (World [] g) with
         | Ok (a, w') => Ok (a, World h (rng w'))
         | Raise e => Raise e
         end.

(** A set as a new individual holds: one to five item indices. *)
Definition initial (s : gset Z) : Prop := in_range s ∧ 1 ≤ len s ≤ 5.

(** Every object of the store is a subset of [0, 20). *)
Definition store_ok {G} (w : world G) : Prop := Forall in_range (heap w).

(** The reference is to an object of the store. *)
Definition allocated {G} (w : world G) (r : ref) : Prop :=
  (r < length (heap w))%nat.

(** Every member of the population is an object of the store. *)
Definition pop_ok {G} (w : world G) (pop : list scored) : Prop :=
  Forall (λ p : scored, allocated w p.1) pop.

(** The store of [w'] keeps every object of the store of [w]. *)
Definition grows {G} (w w' : world G) : Prop :=
  (length (heap w) ≤ length (heap w'))%nat.

(** An item table as [create_items] builds it: one entry for each index
    of [range(NBR_ITEMS)], a weight in [1, 10] and a value in [0, 100). *)
Definition table_ok (items : gmap Z (Z * Q)) : Prop :=
  dom items = universe ∧
  ∀ i wt v, items !! i = Some (wt, v) →
    1 ≤ wt ≤ 10 ∧ (0 <= v)%Q ∧ (v < 100)%Q.

(** * Properties *)

(** ** Outcomes *)

Lemma mapM_outcome_Ok {A B} (f : A → outcome B) (g : A → B) (l : list A) :
  Forall (λ x, f x = Ok (g x)) l → mapM f l = Ok (g <$> l).
Proof.
  induction 1 as [|x l Hx _ IH]; [done|].
  cbn. rewrite Hx. cbn. rewrite IH. done.
Qed.

(** ** The fitness evaluator *)

Lemma getitem_Ok items i :
  i ∈ dom items → getitem items i = Ok (item_weight items i, item_value items i).
Proof.
  intros [[w v] Hi]%elem_of_dom. unfold getitem, item_weight, item_value.
  by rewrite Hi.
Qed.

Lemma getitem_Raise items i : i ∉ dom items → getitem items i = Raise KeyError.
Proof.
  intros Hi%not_elem_of_dom. unfold getitem. by rewrite Hi.
Qed.

Lemma mapM_getitem_keys {B} (p : Z * Q → B) items (l : list Z) :
  Forall (λ i, i ∈ dom items) l →
  mapM (λ item, p <$> getitem items item) l =
    Ok ((λ i, p (item_weight items i, item_value items i)) <$> l).
Proof.
  intros Hl. apply mapM_outcome_Ok. eapply Forall_impl; [exact Hl|].
  intros i Hi. cbn beta. by rewrite getitem_Ok.
Qed.

Lemma mapM_getitem_missing {B} (p : Z * Q → B) items (l : list Z) :
  Exists (λ i, i ∉ dom items) l →
  mapM (λ item, p <$> getitem items item) l = Raise KeyError.
Proof.
  induction l as [|i l IH]; intros Hex; [by inversion Hex|].
  cbn. destruct (decide (i ∈ dom items)) as [Hi|Hi].
  - rewrite getitem_Ok by done. cbn.
    rewrite IH; [done|]. inversion Hex; subst; done.
  - by rewrite getitem_Raise.
Qed.

Lemma evalKnapsack_keys (A : gset Z) (items : gmap Z (Z * Q)) :
  A ⊆ dom items →
  evalKnapsack A items =
    if (MAX_ITEM <? len A) || (MAX_WEIGHT <? total_weight A items)
    then Ok penalty
    else Ok (total_weight A items, total_value A items).
Proof.
  intros Hsub. unfold evalKnapsack.
  assert (Forall (λ i, i ∈ dom items) (elements A)) as Hall.
  { apply Forall_forall. intros i Hi%elem_of_elements. by apply Hsub. }
  rewrite !mapM_getitem_keys by done. done.
Qed.

Lemma evalKnapsack_missing (A : gset Z) (items : gmap Z (Z * Q)) :
  ¬ A ⊆ dom items → evalKnapsack A items = Raise KeyError.
Proof.
  intros Hsub. unfold evalKnapsack.
  rewrite (mapM_getitem_missing fst); [done|].
  destruct (decide (Forall (λ i, i ∈ dom items) (elements A))) as [Hall|Hn].
  - exfalso. apply Hsub. intros i Hi%elem_of_elements.
    by eapply Forall_forall in Hall.
  - apply not_Forall_Exists in Hn; [done|]. intros ?; apply _.
Qed.

(** C1: for every item table and every individual of that table, a set
    whose members are all keys of the table, [evalKnapsack] does not
    raise; it returns the penalty tuple [(10000, 0)] if and only if the
    individual has more than 50 members or its total weight exceeds 50,
    and otherwise it returns exactly the sum of the weights and the sum
    of the values. *)
Theorem evalKnapsack_spec (A : gset Z) (items : gmap Z (Z * Q)) :
  A ⊆ dom items →
  is_Ok (evalKnapsack A items) ∧
  (evalKnapsack A items = Ok (10000, 0%Q) ↔
     50 < len A ∨ 50 < total_weight A items) ∧
  (¬ (50 < len A ∨ 50 < total_weight A items) →
     evalKnapsack A items = Ok (total_weight A items, total_value A items)).
Proof.
  intros Hkeys. rewrite evalKnapsack_keys by done.
  unfold MAX_ITEM, MAX_WEIGHT, penalty.
  destruct (50 <? len A) eqn:Hlen; cbn [orb].
  { apply Z.ltb_lt in Hlen. split; [by eexists|]. split; [|tauto]. tauto. }
  apply Z.ltb_ge in Hlen.
  destruct (50 <? total_weight A items) eqn:Hw.
  { apply Z.ltb_lt in Hw. split; [by eexists|]. split; [|tauto]. tauto. }
  apply Z.ltb_ge in Hw.
  split; [by eexists|]. split; [|done].
  split; [|lia]. intros [= Hw' _]. lia.
Qed.

Lemma evalKnapsack_spec_witness :
  is_Ok (evalKnapsack {[0; 2]} {[0 := (3, 5%Q); 2 := (4, 1 # 2)]}) ∧
  (evalKnapsack {[0; 2]} {[0 := (3, 5%Q); 2 := (4, 1 # 2)]} = Ok (10000, 0%Q) ↔
     50 < len {[0; 2]} ∨
     50 < total_weight {[0; 2]} {[0 := (3, 5%Q); 2 := (4, 1 # 2)]}) ∧
  (¬ (50 < len {[0; 2]} ∨
      50 < total_weight {[0; 2]} {[0 := (3, 5%Q); 2 := (4, 1 # 2)]}) →
     evalKnapsack {[0; 2]} {[0 := (3, 5%Q); 2 := (4, 1 # 2)]} =
       Ok (total_weight {[0; 2]} {[0 := (3, 5%Q); 2 := (4, 1 # 2)]},
           total_value {[0; 2]} {[0 := (3, 5%Q); 2 := (4, 1 # 2)]})).
Proof.
  apply (evalKnapsack_spec {[0; 2]} {[0 := (3, 5%Q); 2 := (4, 1 # 2)]}).
  apply (bool_decide_unpack _). vm_compute. exact I.
Defined.

Example evalKnapsack_two_items :
  evalKnapsack {[0; 2]} {[0 := (3, 5%Q); 2 := (4, 1 # 2)]} = Ok (7, (0 + 5 + (1 # 2))%Q).
Proof. vm_compute. reflexivity. Qed.

(** ** Rules for [returns] *)

Section Rules.
Context {G : Type}.
Implicit Types w : world G.

Lemma returns_ret {A} (a : A) w (Q : A → world G → Prop) :
  Q a w → returns (mret a) w Q.
Proof. intros HQ. by exists a, w. Qed.

Lemma returns_bind {A B} (m : Py G A) (f : A → Py G B) w
    (Q : B → world G → Prop) :
  returns m w (λ a w', returns (f a) w' Q) → returns (m ≫= f) w Q.
Proof.
  intros (a & w' & Hm & b & w'' & Hf & HQ). exists b, w''. split; [|done].
  unfold mbind, Py_bind. by rewrite Hm.
Qed.

Lemma returns_mono {A} (m : Py G A) w (Q Q' : A → world G → Prop) :
  returns m w Q → (∀ a w', Q a w' → Q' a w') → returns m w Q'.
Proof. intros (a & w' & Hm & HQ) HQQ. exists a, w'. eauto. Qed.

Lemma returns_eq {A} (m : Py G A) w a w' :
  returns m w (λ b v, b = a ∧ v = w') → m w = Ok (a, w').
Proof. by intros (b & v & -> & -> & ->). Qed.

Lemma returns_lift {A} (o : outcome A) (a : A) w (Q : A → world G → Prop) :
  o = Ok a → Q a w → returns (lift o) w Q.
Proof. intros -> HQ. by exists a, w. Qed.

Lemma returns_deref r s w (Q : gset Z → world G → Prop) :
  heap w !! r = Some s → Q s w → returns (deref r) w Q.
Proof. intros Hr HQ. exists s, w. unfold deref. by rewrite Hr. Qed.

Lemma returns_assign r s w (Q : () → world G → Prop) :
  is_Some (heap w !! r) →
  Q () (World (<[r := s]> (heap w)) (rng w)) →
  returns (assign r s) w Q.
Proof.
  intros [s0 Hr] HQ. eexists _, _. unfold assign. rewrite Hr. eauto.
Qed.

Lemma returns_alloc s w (Q : ref → world G → Prop) :
  Q (length (heap w)) (World (heap w ++ [s]) (rng w)) →
  returns (alloc s) w Q.
Proof. intros HQ. eexists _, _. unfold alloc. eauto. Qed.

Lemma returns_mapM {A B} (f : A → Py G B) (I : world G → Prop)
    (P : A → B → Prop) (l : list A) w :
  I w →
  (∀ x v, x ∈ l → I v → returns (f x) v (λ y v', P x y ∧ I v')) →
  returns (mapM f l) w (λ ys w', Forall2 P l ys ∧ I w').
Proof.
  revert w. induction l as [|x l IH]; intros w HI Hf.
  { apply returns_ret. split; [constructor|done]. }
  cbn [mapM]. apply returns_bind.
  eapply returns_mono; [apply Hf; [left|done]|].
  intros y v [HP HIv]. apply returns_bind.
  eapply returns_mono; [apply IH; [done|]|].
  { intros x' v' Hx'. apply Hf. by right. }
  intros ys v' [HF HIv']. apply returns_ret. split; [by constructor|done].
Qed.
End Rules.

(** ** Crossover *)

Lemma sym_diff_comm (a b : gset Z) : sym_diff a b = sym_diff b a.
Proof. unfold sym_diff. set_solver. Qed.

Lemma size_inter_le (a b : gset Z) :
  (size (a ∩ b) ≤ size a)%nat ∧ (size (a ∩ b) ≤ size b)%nat.
Proof. split; apply subseteq_size; set_solver. Qed.

Lemma size_split (a b : gset Z) : size a = (size (a ∖ b) + size (a ∩ b))%nat.
Proof.
  rewrite <- size_union by set_solver. f_equal. apply set_eq. intros x.
  rewrite elem_of_union, elem_of_difference, elem_of_intersection.
  destruct (decide (x ∈ b)); tauto.
Qed.

Lemma size_sym_diff (a b : gset Z) :
  (size (sym_diff a b) + 2 * size (a ∩ b) = size a + size b)%nat.
Proof.
  unfold sym_diff. rewrite size_union by set_solver.
  rewrite (size_split a b), (size_split b a).
  assert (b ∩ a = a ∩ b) as -> by set_solver. lia.
Qed.

(** On two different objects [cxSet] leaves the intersection in the
    first and the symmetric difference in the second, and touches nothing
    else. *)
Lemma cxSet_distinct {G} (w : world G) (ind1 ind2 : ref) (A B : gset Z) :
  ind1 ≠ ind2 →
  heap w !! ind1 = Some A →
  heap w !! ind2 = Some B →
  cxSet ind1 ind2 w =
    Ok ((ind1, ind2),
        World (<[ind2 := sym_diff B A]> (<[ind1 := A ∩ B]> (heap w))) (rng w)).
Proof.
  intros Hne H1 H2. apply returns_eq. unfold cxSet.
  apply returns_bind, (returns_deref _ A); [done|].
  apply returns_bind, (returns_deref _ A); [done|].
  apply returns_bind, (returns_deref _ B); [done|].
  apply returns_bind, returns_assign; [by eexists|].
  apply returns_bind, (returns_deref _ B).
  { cbn. by rewrite list_lookup_insert_ne. }
  apply returns_bind, returns_assign.
  { cbn. rewrite list_lookup_insert_ne by done. by eexists. }
  by apply returns_ret.
Qed.

(** On one object passed twice the intersection changes nothing and the
    symmetric difference with the copy empties it. *)
Lemma cxSet_aliased {G} (w : world G) (ind : ref) (A : gset Z) :
  heap w !! ind = Some A →
  cxSet ind ind w =
    Ok ((ind, ind),
        World (<[ind := sym_diff (A ∩ A) A]> (<[ind := A ∩ A]> (heap w))) (rng w)).
Proof.
  intros H1. pose proof (lookup_lt_Some _ _ _ H1) as Hlt.
  apply returns_eq. unfold cxSet.
  apply returns_bind, (returns_deref _ A); [done|].
  apply returns_bind, (returns_deref _ A); [done|].
  apply returns_bind, (returns_deref _ A); [done|].
  apply returns_bind, returns_assign; [by eexists|].
  apply returns_bind, (returns_deref _ (A ∩ A)).
  { cbn. by rewrite list_lookup_insert_eq. }
  apply returns_bind, returns_assign.
  { cbn. rewrite list_lookup_insert_eq by done. by eexists. }
  by apply returns_ret.
Qed.

(** C4: for every pair of individuals, two objects of the store holding
    [A] and [B], [cxSet] updates both in place and returns them: the
    first then holds [A ∩ B] and the second the symmetric difference of
    the original [A] and [B]; no other object and no generator state
    changes. The first offspring has at most [min(len A, len B)] members
    and the second [len A + len B - 2 * len (A ∩ B)]. *)
Theorem cxSet_spec {G} (w : world G) (ind1 ind2 : ref) (A B : gset Z) :
  ind1 ≠ ind2 →
  heap w !! ind1 = Some A →
  heap w !! ind2 = Some B →
  ∃ w', cxSet ind1 ind2 w = Ok ((ind1, ind2), w') ∧
    heap w' !! ind1 = Some (A ∩ B) ∧
    heap w' !! ind2 = Some (sym_diff A B) ∧
    (∀ r, r ≠ ind1 → r ≠ ind2 → heap w' !! r = heap w !! r) ∧
    rng w' = rng w ∧
    len (A ∩ B) ≤ Z.min (len A) (len B) ∧
    len (sym_diff A B) = len A + len B - 2 * len (A ∩ B).
Proof.
  intros Hne H1 H2. eexists. split; [by apply cxSet_distinct|]. cbn.
  pose proof (lookup_lt_Some _ _ _ H1) as Hlt1.
  pose proof (lookup_lt_Some _ _ _ H2) as Hlt2.
  split; [|split; [|split; [|split; [done|]]]].
  - rewrite list_lookup_insert_ne by done. by rewrite list_lookup_insert_eq.
  - rewrite list_lookup_insert_eq by (by rewrite length_insert).
    by rewrite sym_diff_comm.
  - intros r Hr1 Hr2. by rewrite !list_lookup_insert_ne.
  - unfold len. pose proof (size_inter_le A B). pose proof (size_sym_diff A B).
    lia.
Qed.

Lemma cxSet_spec_witness :
  ∃ w', cxSet 0%nat 1%nat (World [{[1; 2]}; {[2; 3; 4]}] 7) = Ok ((0%nat, 1%nat), w') ∧
    heap w' !! 0%nat = Some ({[1; 2]} ∩ {[2; 3; 4]}) ∧
    heap w' !! 1%nat = Some (sym_diff {[1; 2]} {[2; 3; 4]}) ∧
    (∀ r, r ≠ 0%nat → r ≠ 1%nat →
          heap w' !! r = heap (World [{[1; 2]}; {[2; 3; 4]}] 7) !! r) ∧
    rng w' = rng (World [{[1; 2]}; {[2; 3; 4]}] 7) ∧
    len ({[1; 2]} ∩ {[2; 3; 4]}) ≤ Z.min (len {[1; 2]}) (len {[2; 3; 4]}) ∧
    len (sym_diff {[1; 2]} {[2; 3; 4]}) =
      len {[1; 2]} + len {[2; 3; 4]} - 2 * len ({[1; 2]} ∩ {[2; 3; 4]}).
Proof.
  apply (cxSet_spec (World [{[1; 2]}; {[2; 3; 4]}] 7) 0%nat 1%nat);
    [lia | reflexivity | reflexivity].
Defined.

(** ** Mutation *)

Lemma Qltb_lt (x y : Q) : Qltb x y = true ↔ (x < y)%Q.
Proof.
  unfold Qltb. rewrite negb_true_iff, <- not_true_iff_false, Qle_bool_iff.
  split; [apply Qnot_le_lt | apply Qlt_not_le].
Qed.

Lemma Qltb_ge (x y : Q) : Qltb x y = false ↔ ¬ (x < y)%Q.
Proof. rewrite <- Qltb_lt. by destruct (Qltb x y). Qed.

Lemma size_zero_iff (s : gset Z) : size s = 0%nat ↔ s = ∅.
Proof. rewrite size_empty_iff. apply leibniz_equiv_iff. Qed.

Lemma sorted_Permutation (s : gset Z) : sorted s ≡ₚ elements s.
Proof. apply merge_sort_Permutation. Qed.

Lemma sorted_Sorted (s : gset Z) : Sorted Z.le (sorted s).
Proof. apply (Sorted_merge_sort Z.le). Qed.

Lemma sorted_length (s : gset Z) : length (sorted s) = size s.
Proof. by rewrite sorted_Permutation. Qed.

Lemma sorted_elem_of (s : gset Z) (x : Z) : x ∈ sorted s ↔ x ∈ s.
Proof. by rewrite sorted_Permutation, elem_of_elements. Qed.

Lemma sorted_NoDup (s : gset Z) : NoDup (sorted s).
Proof. rewrite sorted_Permutation. apply NoDup_elements. Qed.

(** Each member sits at exactly one position of the sorted membership:
    a uniform draw of a position is a uniform draw of a member. *)
Lemma sorted_position (s : gset Z) (x : Z) :
  x ∈ s →
  ∃ k, (k < size s)%nat ∧ sorted s !! k = Some x ∧
       ∀ k', sorted s !! k' = Some x → k' = k.
Proof.
  intros Hx. apply sorted_elem_of, list_elem_of_lookup in Hx as [k Hk].
  exists k. split; [|split; [done|]].
  - rewrite <- sorted_length. by eapply lookup_lt_Some.
  - intros k' Hk'. by eapply NoDup_lookup; [apply sorted_NoDup|..].
Qed.

Section Mutation.
Context {G : Type} `{!PyRandom G}.
Implicit Types w : world G.

Lemma returns_random w (Q : Q → world G → Prop) :
  Q (next_random (rng w)).1 (World (heap w) (next_random (rng w)).2) →
  returns random_random w Q.
Proof.
  intros HQ. unfold random_random, returns.
  destruct (next_random (rng w)) as [u g]. eauto.
Qed.

Lemma returns_randrange n w (Q : Z → world G → Prop) :
  0 < n →
  Q (randbelow n (rng w)).1 (World (heap w) (randbelow n (rng w)).2) →
  returns (randrange n) w Q.
Proof.
  intros Hn HQ. unfold randrange, returns.
  destruct (Z.leb_spec n 0); [lia|].
  destruct (randbelow n (rng w)) as [k g]. eauto.
Qed.

Lemma returns_choice {A} (l : list A) w (Q : A → world G → Prop) :
  l ≠ [] →
  (∀ x, l !! Z.to_nat (randbelow (Z.of_nat (length l)) (rng w)).1 = Some x →
        Q x (World (heap w) (randbelow (Z.of_nat (length l)) (rng w)).2)) →
  returns (choice l) w Q.
Proof.
  intros Hl HQ. unfold choice, returns.
  pose proof (randbelow_range (Z.of_nat (length l)) (rng w)) as Hk.
  destruct l as [|a l']; [done|]. set (l := a :: l') in *.
  destruct (randbelow (Z.of_nat (length l)) (rng w)) as [k g]. cbn in Hk, HQ.
  destruct (lookup_lt_is_Some_2 l (Z.to_nat k)) as [x Hx]; [cbn in *; lia|].
  rewrite Hx. eauto.
Qed.

(** The three cases of [mutSet] on an allocated individual. *)
Lemma mutSet_remove w ind A :
  heap w !! ind = Some A →
  ((next_random (rng w)).1 < 1 # 2)%Q →
  A ≠ ∅ →
  ∃ x, sorted A !! Z.to_nat (randbelow (len A) (next_random (rng w)).2).1 = Some x ∧
    x ∈ A ∧
    mutSet ind w =
      Ok (ind, World (<[ind := A ∖ {[x]}]> (heap w))
                     (randbelow (len A) (next_random (rng w)).2).2).
Proof.
  intros Hind Hu HA.
  assert (sorted A ≠ []) as Hne.
  { intros Hnil. apply HA, size_zero_iff. by rewrite <- sorted_length, Hnil. }
  set (g1 := (next_random (rng w)).2).
  pose proof (randbelow_range (len A) g1) as Hk.
  destruct (lookup_lt_is_Some_2 (sorted A) (Z.to_nat (randbelow (len A) g1).1))
    as [x Hx].
  { rewrite sorted_length. unfold len in *.
    assert (size A ≠ 0%nat) by by rewrite size_zero_iff. lia. }
  exists x. split; [done|].
  assert (x ∈ A) as HxA by (eapply sorted_elem_of, list_elem_of_lookup_2, Hx).
  split; [done|]. apply returns_eq. unfold mutSet.
  apply returns_bind, returns_random. apply Qltb_lt in Hu. rewrite Hu.
  apply returns_bind, returns_bind, (returns_deref _ A); [done|].
  rewrite decide_True by done.
  apply returns_bind, returns_choice; [done|]. cbn [rng heap].
  rewrite sorted_length. fold (len A). fold g1. intros x' Hx'.
  assert (x' = x) as -> by congruence.
  unfold set_remove. apply returns_bind, (returns_deref _ A); [done|].
  rewrite decide_True by done. apply returns_assign; [by eexists|].
  by apply returns_ret.
Qed.

Lemma mutSet_remove_empty w ind :
  heap w !! ind = Some ∅ →
  ((next_random (rng w)).1 < 1 # 2)%Q →
  mutSet ind w = Ok (ind, World (heap w) (next_random (rng w)).2).
Proof.
  intros Hind Hu. apply returns_eq. unfold mutSet.
  apply returns_bind, returns_random. apply Qltb_lt in Hu. rewrite Hu.
  apply returns_bind, returns_bind, (returns_deref _ ∅); [done|].
  rewrite decide_False by (intros Hn; by apply Hn).
  apply returns_ret. by apply returns_ret.
Qed.

Lemma mutSet_add w ind A :
  heap w !! ind = Some A →
  ¬ ((next_random (rng w)).1 < 1 # 2)%Q →
  mutSet ind w =
    Ok (ind, World (<[ind := A ∪ {[(randbelow NBR_ITEMS (next_random (rng w)).2).1]}]>
                      (heap w))
                   (randbelow NBR_ITEMS (next_random (rng w)).2).2).
Proof.
  intros Hind Hu. apply returns_eq. unfold mutSet.
  apply returns_bind, returns_random. apply Qltb_ge in Hu. rewrite Hu.
  apply returns_bind, returns_bind, returns_randrange; [done|].
  unfold set_add. apply returns_bind, (returns_deref _ A); [done|].
  apply returns_assign; [by eexists|]. by apply returns_ret.
Qed.
End Mutation.

(** C3 (amended): one call of [mutSet] on an individual holding [A] draws
    [random.random()] once and then does exactly one of three things.
    When the draw is below 0.5 and [A] is not empty, it removes the member
    at the position of the sorted membership that the generator draws
    below [len(A)], and every member sits at exactly one position. When
    the draw is below 0.5 and [A] is empty, it changes nothing: no index
    is added. When the draw is not below 0.5, it adds the index the
    generator draws in [0, NBR_ITEMS), which changes nothing when that
    index is already a member. It returns the individual. *)
Theorem mutSet_spec {G} `{!PyRandom G} (w : world G) (ind : ref) (A : gset Z) :
  heap w !! ind = Some A →
  (((next_random (rng w)).1 < 1 # 2)%Q → A ≠ ∅ →
     ∃ x, sorted A !! Z.to_nat (randbelow (len A) (next_random (rng w)).2).1
            = Some x ∧
       x ∈ A ∧
       mutSet ind w =
         Ok (ind, World (<[ind := A ∖ {[x]}]> (heap w))
                        (randbelow (len A) (next_random (rng w)).2).2)) ∧
  (((next_random (rng w)).1 < 1 # 2)%Q → A = ∅ →
     mutSet ind w = Ok (ind, World (heap w) (next_random (rng w)).2)) ∧
  (¬ ((next_random (rng w)).1 < 1 # 2)%Q →
     ∃ j, j = (randbelow NBR_ITEMS (next_random (rng w)).2).1 ∧
       0 ≤ j < NBR_ITEMS ∧
       mutSet ind w =
         Ok (ind, World (<[ind := A ∪ {[j]}]> (heap w))
                        (randbelow NBR_ITEMS (next_random (rng w)).2).2) ∧
       (j ∈ A → <[ind := A ∪ {[j]}]> (heap w) = heap w)) ∧
  Sorted Z.le (sorted A) ∧
  length (sorted A) = size A ∧
  (∀ x, x ∈ A →
     ∃ k, (k < size A)%nat ∧ sorted A !! k = Some x ∧
          ∀ k', sorted A !! k' = Some x → k' = k).
Proof.
  intros Hind. repeat split.
  - intros Hu HA. by apply mutSet_remove.
  - intros Hu ->. by apply mutSet_remove_empty.
  - intros Hu. eexists. split; [done|].
    split; [by apply randbelow_range|]. split; [by apply mutSet_add|].
    intros Hj. replace (A ∪ {[_]}) with A by set_solver.
    by apply list_insert_id.
  - apply sorted_Sorted.
  - apply sorted_length.
  - apply sorted_position.
Qed.

Lemma mutSet_spec_witness :
  ∃ x, x ∈ ({[1; 2]} : gset Z) ∧
    @mutSet Z lcg 0%nat (World [{[1; 2]}] 7) =
      Ok (0%nat, World [{[1; 2]} ∖ {[x]}]
                       (@randbelow Z lcg 2 (@next_random Z lcg 7).2).2).
Proof.
  destruct (@mutSet_spec Z lcg (World [{[1; 2]}] 7) 0%nat {[1; 2]} eq_refl)
    as (Hrem & _).
  destruct Hrem as (x & _ & Hx & Hm).
  - vm_compute. reflexivity.
  - apply (bool_decide_unpack _). vm_compute. exact I.
  - exists x. split; [exact Hx | exact Hm].
Defined.

(** C3, as stated, fails on the empty individual: when the draw selects
    the removal, nothing is added and the individual stays empty. *)
Lemma mutSet_empty_adds_nothing :
  ((@next_random Z lcg (rng (World [∅] 7%Z))).1 < 1 # 2)%Q ∧
  @mutSet Z lcg 0%nat (World [∅] 7) = Ok (0%nat, World [∅] (lcg_next 7)) ∧
  (∅ : gset Z) ∪ {[(@randbelow Z lcg NBR_ITEMS (lcg_next 7)).1]} ≠ ∅.
Proof.
  split; [vm_compute; reflexivity|]. split; [vm_compute; reflexivity|].
  apply (bool_decide_unpack _). vm_compute. exact I.
Qed.

(** C8: the operators are total on the edge cases. On an individual that
    is empty or the full universe, [mutSet] returns; on the empty one the
    removal changes nothing, on the full one the addition changes
    nothing; and [cxSet] returns with such an individual on either side,
    whatever the other argument is (the same object included). *)
Theorem operators_edge_cases {G} `{!PyRandom G} (w : world G) (ind : ref)
    (A : gset Z) :
  heap w !! ind = Some A →
  A = ∅ ∨ A = universe →
  (∃ w', mutSet ind w = Ok (ind, w') ∧
     (A = ∅ → ((next_random (rng w)).1 < 1 # 2)%Q → heap w' = heap w) ∧
     (A = universe → ¬ ((next_random (rng w)).1 < 1 # 2)%Q →
        heap w' = heap w)) ∧
  (∀ ind2 B, heap w !! ind2 = Some B →
     is_Ok (cxSet ind ind2 w) ∧ is_Ok (cxSet ind2 ind w)).
Proof.
  intros Hind HA. split.
  - destruct (Qlt_le_dec (next_random (rng w)).1 (1 # 2)) as [Hu|Hu].
    + destruct (decide (A = ∅)) as [->|Hne].
      * eexists. split; [by apply mutSet_remove_empty|]. split; [done|].
        intros _ Hge. by destruct Hge.
      * destruct (mutSet_remove w ind A) as (x & _ & _ & Hm); [done..|].
        eexists. split; [exact Hm|]. split; [done|].
        intros _ Hge. by destruct Hge.
    + apply Qle_not_lt in Hu. eexists. split; [by apply mutSet_add|].
      split; [done|]. intros -> _. cbn.
      pose proof (randbelow_range NBR_ITEMS (next_random (rng w)).2 eq_refl)
        as Hj.
      set (j := (randbelow NBR_ITEMS (next_random (rng w)).2).1) in *.
      assert (j ∈ universe) as Hin.
      { unfold universe. apply elem_of_list_to_set, elem_of_seqZ. lia. }
      replace (universe ∪ {[j]}) with universe by set_solver.
      by apply list_insert_id.
  - intros ind2 B Hind2. split.
    + destruct (decide (ind = ind2)) as [<-|Hne].
      * eexists. by eapply cxSet_aliased.
      * eexists. by eapply cxSet_distinct.
    + destruct (decide (ind2 = ind)) as [->|Hne].
      * eexists. by eapply cxSet_aliased.
      * eexists. by eapply cxSet_distinct.
Qed.

Lemma operators_edge_cases_witness :
  (∃ w', @mutSet Z lcg 0%nat (World [∅; universe] 7) = Ok (0%nat, w') ∧
     ((∅ : gset Z) = ∅ →
        ((@next_random Z lcg (rng (World [∅; universe] 7%Z))).1 < 1 # 2)%Q →
        heap w' = heap (World [∅; universe] 7)) ∧
     ((∅ : gset Z) = universe →
        ¬ ((@next_random Z lcg (rng (World [∅; universe] 7%Z))).1 < 1 # 2)%Q →
        heap w' = heap (World [∅; universe] 7))) ∧
  (∀ ind2 B, heap (World [∅; universe] 7) !! ind2 = Some B →
     is_Ok (cxSet 0%nat ind2 (World [∅; universe] 7)) ∧
     is_Ok (cxSet ind2 0%nat (World [∅; universe] 7))).
Proof.
  apply (@operators_edge_cases Z lcg (World [∅; universe] 7) 0%nat ∅);
    [reflexivity | left; reflexivity].
Defined.

(** ** Items *)

Lemma foldl_insert_dom (kvs : list (Z * (Z * Q))) (d : gmap Z (Z * Q)) :
  dom (foldl (λ (d : gmap Z (Z * Q)) kv, <[kv.1 := kv.2]> d) d kvs)
  = dom d ∪ list_to_set kvs.*1.
Proof.
  revert d. induction kvs as [|kv kvs IH]; intros d; cbn.
  - set_solver.
  - rewrite IH, dom_insert_L. set_solver.
Qed.

Lemma foldl_insert_lookup (kvs : list (Z * (Z * Q))) (d : gmap Z (Z * Q)) i x :
  foldl (λ (d : gmap Z (Z * Q)) kv, <[kv.1 := kv.2]> d) d kvs !! i = Some x →
  d !! i = Some x ∨ (i, x) ∈ kvs.
Proof.
  revert d. induction kvs as [|[k v] kvs IH]; intros d; cbn; [by left|].
  intros [Hd|Hin]%IH; [|right; by right].
  destruct (decide (k = i)) as [->|Hne].
  - rewrite lookup_insert_eq in Hd. injection Hd as ->. right. left.
  - rewrite lookup_insert_ne in Hd by done. by left.
Qed.

Lemma Forall2_keys {V} (R : Z → Z * V → Prop) (l : list Z)
    (kvs : list (Z * V)) :
  (∀ i kv, R i kv → kv.1 = i) → Forall2 R l kvs → kvs.*1 = l.
Proof.
  intros HR. induction 1 as [|i kv l kvs Hk _ IH]; [done|].
  cbn. by rewrite IH, (HR _ _ Hk).
Qed.

Section Items.
Context {G : Type} `{!PyRandom G}.
Implicit Types w : world G.

Lemma returns_randint a b w (Q : Z → world G → Prop) :
  a ≤ b →
  (∀ k v, a ≤ k ≤ b → heap v = heap w → Q k v) →
  returns (randint a b) w Q.
Proof.
  intros Hab HQ. unfold randint. apply returns_bind, returns_randrange; [lia|].
  apply returns_ret, HQ; [|done].
  pose proof (randbelow_range (b - a + 1) (rng w)). lia.
Qed.

Lemma returns_uniform_0_100 w (Q : Q → world G → Prop) :
  (∀ x v, (0 <= x)%Q → (x < 100)%Q → heap v = heap w → Q x v) →
  returns (uniform 0 100) w Q.
Proof.
  intros HQ. unfold uniform. apply returns_bind, returns_random.
  pose proof (next_random_range (rng w)) as [H0 H1].
  apply returns_ret, HQ; [| |done].
  - set (u := (next_random (rng w)).1) in *. lra.
  - set (u := (next_random (rng w)).1) in *. lra.
Qed.

(** [create_items] returns a table of the expected shape and leaves the
    store alone. *)
Lemma create_items_ok seed w :
  returns (create_items seed) w (λ items w', table_ok items ∧ heap w' = heap w).
Proof.
  unfold create_items. apply returns_bind. unfold random_seed.
  eexists _, _. split; [done|]. apply returns_bind.
  eapply returns_mono.
  { apply (returns_mapM _ (λ v, heap v = heap w)
             (λ i kv, kv.1 = i ∧ 1 ≤ kv.2.1 ≤ 10 ∧ (0 <= kv.2.2)%Q ∧ (kv.2.2 < 100)%Q));
      [done|].
    intros i v _ Hv. apply returns_bind, returns_randint; [done|].
    intros wt v1 Hwt Hv1. apply returns_bind, returns_uniform_0_100.
    intros x v2 Hx0 Hx1 Hv2. apply returns_ret. cbn. split; [done|]. congruence. }
  cbn beta. intros kvs w' [Hkvs Hw']. apply returns_ret. split; [|done].
  assert (kvs.*1 = seqZ 0 NBR_ITEMS) as Hkeys.
  { eapply Forall2_keys, Hkvs. by intros i kv [Hk _]. }
  split.
  - rewrite foldl_insert_dom, Hkeys, dom_empty_L, (left_id_L ∅ (∪)). done.
  - intros i wt v [Hd|Hin]%foldl_insert_lookup; [by rewrite lookup_empty in Hd|].
    apply list_elem_of_lookup in Hin as [n Hn].
    eapply Forall2_lookup_r in Hkvs as (j & _ & _ & Hb); [|exact Hn].
    exact Hb.
Qed.
End Items.

(** ** Individuals stay within the item indices *)

Lemma in_range_universe (s : gset Z) : in_range s ↔ s ⊆ universe.
Proof.
  unfold in_range, universe. split.
  - intros Hs x Hx. apply elem_of_list_to_set, elem_of_seqZ.
    specialize (Hs x Hx). lia.
  - intros Hs x Hx. apply Hs, elem_of_list_to_set, elem_of_seqZ in Hx. lia.
Qed.

Lemma size_universe : size universe = 20%nat.
Proof. vm_compute. reflexivity. Qed.

Lemma in_range_len (s : gset Z) : in_range s → len s ≤ 20.
Proof.
  intros Hs%in_range_universe%subseteq_size. rewrite size_universe in Hs.
  unfold len. lia.
Qed.

Lemma in_range_subseteq (s t : gset Z) : s ⊆ t → in_range t → in_range s.
Proof. intros Hst Ht x Hx. apply Ht, Hst, Hx. Qed.

Lemma in_range_sym_diff (s t : gset Z) :
  in_range s → in_range t → in_range (sym_diff s t).
Proof.
  intros Hs Ht x. unfold sym_diff.
  rewrite elem_of_union, !elem_of_difference. intros [[Hx _]|[Hx _]]; auto.
Qed.

Lemma in_range_add (s : gset Z) (j : Z) :
  in_range s → 0 ≤ j < NBR_ITEMS → in_range (s ∪ {[j]}).
Proof.
  intros Hs Hj x. rewrite elem_of_union, elem_of_singleton.
  intros [Hx| ->]; auto.
Qed.

Lemma in_range_list_to_set (xs : list Z) :
  Forall (λ x, 0 ≤ x < NBR_ITEMS) xs → in_range (list_to_set xs).
Proof.
  intros Hxs x Hx%elem_of_list_to_set. by eapply Forall_forall in Hxs.
Qed.

Lemma grows_refl {G} (w : world G) : grows w w.
Proof. unfold grows. lia. Qed.

Lemma grows_trans {G} (w1 w2 w3 : world G) :
  grows w1 w2 → grows w2 w3 → grows w1 w3.
Proof. unfold grows. lia. Qed.

Lemma allocated_grows {G} (w w' : world G) r :
  allocated w r → grows w w' → allocated w' r.
Proof. unfold allocated, grows. lia. Qed.

Lemma allocated_lookup {G} (w : world G) r :
  allocated w r → store_ok w → ∃ s, heap w !! r = Some s ∧ in_range s.
Proof.
  intros [s Hs]%lookup_lt_is_Some_2 Hok. exists s. split; [done|].
  unfold store_ok in Hok. by eapply Forall_lookup_1 in Hok.
Qed.

Section Invariant.
Context {G : Type} `{!PyRandom G}.
Implicit Types w : world G.

Lemma store_ok_insert (h : list (gset Z)) (r : ref) (s : gset Z) :
  Forall in_range h → in_range s → Forall in_range (<[r := s]> h).
Proof.
  intros Hok Hs. destruct (decide (r < length h)%nat).
  - by apply Forall_insert.
  - by rewrite list_insert_ge by lia.
Qed.

Lemma returns_mapM_refs {A} (f : A → Py G ref) (l : list A) w :
  store_ok w →
  (∀ x v, store_ok v → grows w v →
     returns (f x) v (λ r v', store_ok v' ∧ allocated v' r ∧ grows v v')) →
  returns (mapM f l) w
    (λ rs w', store_ok w' ∧ Forall (allocated w') rs ∧ grows w w' ∧
              length rs = length l).
Proof.
  revert w. induction l as [|x l IH]; intros w Hok Hf.
  { apply returns_ret. repeat split; [done|constructor|apply grows_refl]. }
  cbn [mapM]. apply returns_bind.
  eapply returns_mono; [apply Hf; [done|apply grows_refl]|].
  intros r v (Hv & Hr & Hwv). apply returns_bind.
  eapply returns_mono; [apply IH; [done|]|].
  { intros x' v' Hv' Hvv'. apply Hf; [done|]. by eapply grows_trans. }
  intros rs v' (Hv' & Hrs & Hvv' & Hlen). apply returns_ret.
  repeat split; [done| |by eapply grows_trans|by cbn; rewrite Hlen].
  constructor; [by eapply allocated_grows|done].
Qed.

(** A new individual is a set of draws of [randrange(NBR_ITEMS)]. *)
Lemma individual_ok w :
  store_ok w →
  returns individual w (λ r w', store_ok w' ∧ allocated w' r ∧ grows w w').
Proof.
  intros Hok. unfold individual. apply returns_bind.
  eapply returns_mono.
  { apply (returns_mapM _ (λ v, heap v = heap w)
             (λ _ x, 0 ≤ x < NBR_ITEMS)); [done|].
    intros _ v _ Hv. apply returns_randrange; [done|]. split; [|done].
    by apply randbelow_range. }
  cbn beta. intros xs v [Hxs Hv]. apply returns_alloc.
  unfold store_ok, allocated, grows in *. cbn. rewrite Hv.
  rewrite length_app. cbn. repeat split; [|lia..].
  apply Forall_app. split; [done|]. apply Forall_singleton.
  apply in_range_list_to_set. clear -Hxs.
  induction Hxs; constructor; auto.
Qed.

Lemma population_ok n w :
  store_ok w →
  returns (population n) w
    (λ rs w', store_ok w' ∧ Forall (allocated w') rs ∧ grows w w' ∧
              length rs = n).
Proof.
  intros Hok. unfold population. eapply returns_mono.
  { apply returns_mapM_refs; [done|]. intros _ v Hv _. by apply individual_ok. }
  cbn beta. intros rs w' (? & ? & ? & Hlen). by rewrite length_seq in Hlen.
Qed.

Lemma clone_ok w r :
  store_ok w → allocated w r →
  returns (clone r) w (λ r' w', store_ok w' ∧ allocated w' r' ∧ grows w w').
Proof.
  intros Hok Hr. destruct (allocated_lookup w r) as (s & Hs & Hin); [done..|].
  unfold clone. apply returns_bind, (returns_deref _ s); [done|].
  apply returns_alloc. unfold store_ok, allocated, grows in *. cbn.
  rewrite length_app. cbn. repeat split; [|lia..].
  apply Forall_app. split; [done|]. by apply Forall_singleton.
Qed.

(** [cxSet] keeps the store within the item indices, whether or not its
    arguments are one object. *)
Lemma cxSet_ok w ind1 ind2 :
  store_ok w → allocated w ind1 → allocated w ind2 →
  returns (cxSet ind1 ind2) w
    (λ r w', r = (ind1, ind2) ∧ store_ok w' ∧
             length (heap w') = length (heap w)).
Proof.
  intros Hok H1 H2.
  destruct (allocated_lookup w ind1) as (A & HA & HinA); [done..|].
  destruct (allocated_lookup w ind2) as (B & HB & HinB); [done..|].
  destruct (decide (ind1 = ind2)) as [<-|Hne].
  - eexists _, _. split; [by apply cxSet_aliased|]. split; [done|].
    split; [|by cbn; rewrite !length_insert].
    unfold store_ok. cbn.
    apply store_ok_insert; [apply store_ok_insert; [done|]|].
    + eapply in_range_subseteq; [|exact HinA]. set_solver.
    + apply in_range_sym_diff; [|done].
      eapply in_range_subseteq; [|exact HinA]. set_solver.
  - eexists _, _. split; [by apply cxSet_distinct|]. split; [done|].
    split; [|by cbn; rewrite !length_insert].
    unfold store_ok. cbn.
    apply store_ok_insert; [apply store_ok_insert; [done|]|].
    + eapply in_range_subseteq; [|exact HinA]. set_solver.
    + by apply in_range_sym_diff.
Qed.

(** [mutSet] keeps the store within the item indices. *)
Lemma mutSet_ok w ind :
  store_ok w → allocated w ind →
  returns (mutSet ind) w
    (λ r w', r = ind ∧ store_ok w' ∧ length (heap w') = length (heap w)).
Proof.
  intros Hok Hind.
  destruct (allocated_lookup w ind) as (A & HA & HinA); [done..|].
  destruct (Qlt_le_dec (next_random (rng w)).1 (1 # 2)) as [Hu|Hu].
  - destruct (decide (A = ∅)) as [->|Hne].
    + eexists _, _. split; [by apply mutSet_remove_empty|]. by split.
    + destruct (mutSet_remove w ind A) as (x & _ & _ & Hm); [done..|].
      eexists _, _. split; [exact Hm|]. split; [done|].
      split; [|by cbn; rewrite length_insert].
      unfold store_ok. cbn. apply store_ok_insert; [done|].
      eapply in_range_subseteq; [|exact HinA]. set_solver.
  - apply Qle_not_lt in Hu. eexists _, _. split; [by apply mutSet_add|].
    split; [done|]. split; [|by cbn; rewrite length_insert].
    unfold store_ok. cbn. apply store_ok_insert; [done|].
    apply in_range_add; [done|].
    by apply randbelow_range.
Qed.
End Invariant.

(** ** The evolution loop returns *)

Section Loop.
Context {G : Type} `{!PyRandom G} `{!Selector}.
Implicit Types w : world G.
Implicit Types pop : list scored.

Lemma pop_ok_grows w w' pop : pop_ok w pop → grows w w' → pop_ok w' pop.
Proof.
  intros Hp Hg. eapply Forall_impl; [exact Hp|].
  intros p Hr. cbn beta in Hr. eapply allocated_grows; eauto.
Qed.

Lemma returns_choice_pop pop w (Q : scored → world G → Prop) :
  pop ≠ [] → pop_ok w pop →
  (∀ p g, allocated w p.1 → Q p (World (heap w) g)) →
  returns (choice pop) w Q.
Proof.
  intros Hne Hpop HQ. apply returns_choice; [done|].
  intros p Hp. apply HQ. eapply Forall_lookup_1 in Hpop; [|exact Hp]. done.
Qed.

Lemma same_length_grows w w' :
  length (heap w') = length (heap w) → grows w w'.
Proof. unfold grows. lia. Qed.

(** A mutation applied with probability [mutpb]. *)
Lemma maybe_mutSet_ok (b : bool) w ind :
  store_ok w → allocated w ind →
  returns (if b then mutSet ind else mret ind) w
    (λ r w', r = ind ∧ store_ok w' ∧ grows w w').
Proof.
  intros Hok Hind. destruct b.
  - eapply returns_mono; [by apply mutSet_ok|].
    intros r w' (-> & ? & ?). auto using same_length_grows.
  - apply returns_ret. auto using grows_refl.
Qed.

Lemma maybe_cxSet_ok (b : bool) w ind1 ind2 :
  store_ok w → allocated w ind1 → allocated w ind2 →
  returns (if b then cxSet ind1 ind2 else mret (ind1, ind2)) w
    (λ r w', r = (ind1, ind2) ∧ store_ok w' ∧ grows w w').
Proof.
  intros Hok H1 H2. destruct b.
  - eapply returns_mono; [by apply cxSet_ok|].
    intros r w' (-> & ? & ?). auto using same_length_grows.
  - apply returns_ret. auto using grows_refl.
Qed.

Lemma vary_pair_ok pop cxpb mutpb w :
  pop ≠ [] → store_ok w → pop_ok w pop →
  returns (vary_pair pop cxpb mutpb) w
    (λ kids w', store_ok w' ∧ Forall (allocated w') kids ∧ grows w w' ∧
                length kids = 2%nat).
Proof.
  intros Hne Hok Hpop. unfold vary_pair.
  apply returns_bind, returns_choice_pop; [done..|]. intros p1 g1 Hp1.
  set (w1 := World (heap w) g1).
  assert (store_ok w1 ∧ grows w w1 ∧ pop_ok w1 pop) as (Hok1 & Hg1 & Hpop1).
  { by split; [|split; [apply same_length_grows|]]. }
  apply returns_bind, returns_choice_pop; [done..|]. intros p2 g2 Hp2.
  set (w2 := World (heap w1) g2).
  assert (store_ok w2 ∧ grows w w2) as (Hok2 & Hg2)
    by (split; [done|by apply same_length_grows]).
  apply returns_bind. eapply returns_mono; [by apply (clone_ok w2 p1.1)|].
  intros c1 w3 (Hok3 & Hc1 & Hg3).
  apply returns_bind. eapply returns_mono.
  { apply (clone_ok w3 p2.1); [done|]. by eapply allocated_grows. }
  intros c2 w4 (Hok4 & Hc2 & Hg4).
  apply returns_bind, returns_random.
  set (w5 := World (heap w4) _).
  assert (store_ok w5 ∧ grows w4 w5) as (Hok5 & Hg5)
    by (split; [done|by apply same_length_grows]).
  apply returns_bind. eapply returns_mono.
  { apply (maybe_cxSet_ok _ w5 c1 c2); [done| |done].
    by eapply allocated_grows. }
  intros cs w6 (-> & Hok6 & Hg6). cbn [fst snd].
  apply returns_bind, returns_random.
  set (w7 := World (heap w6) _).
  assert (store_ok w7 ∧ grows w6 w7) as (Hok7 & Hg7)
    by (split; [done|by apply same_length_grows]).
  assert (allocated w7 c1 ∧ allocated w7 c2) as [Hc1' Hc2'].
  { split; eapply allocated_grows; eauto using grows_trans. }
  apply returns_bind. eapply returns_mono; [by apply maybe_mutSet_ok|].
  intros o1 w8 (-> & Hok8 & Hg8).
  apply returns_bind, returns_random.
  set (w9 := World (heap w8) _).
  assert (store_ok w9 ∧ grows w8 w9) as (Hok9 & Hg9)
    by (split; [done|by apply same_length_grows]).
  apply returns_bind. eapply returns_mono.
  { apply maybe_mutSet_ok; [done|]. eapply allocated_grows; eauto. }
  intros o2 w10 (-> & Hok10 & Hg10). apply returns_ret.
  split; [done|]. split; [|split; [|done]].
  - repeat constructor; eapply allocated_grows; eauto using grows_trans.
  - eauto 10 using grows_trans.
Qed.

Lemma offspring_ok n pop cxpb mutpb w :
  pop ≠ [] → store_ok w → pop_ok w pop →
  returns (offspring n pop cxpb mutpb) w
    (λ kids w', store_ok w' ∧ Forall (allocated w') kids ∧ grows w w' ∧
                length kids = n).
Proof.
  intros Hne. revert w. induction n as [n IH] using lt_wf_ind.
  intros w Hok Hpop. destruct n as [|[|n]]; cbn [offspring].
  - apply returns_ret. repeat split; [done|constructor|apply grows_refl].
  - apply returns_bind. eapply returns_mono; [by apply vary_pair_ok|].
    intros kids w' (Hok' & Hkids & Hg & Hlen). apply returns_ret.
    repeat split; [done| |done|].
    + by apply Forall_take.
    + rewrite length_take. lia.
  - apply returns_bind. eapply returns_mono; [by apply vary_pair_ok|].
    intros kids w' (Hok' & Hkids & Hg & Hlen). apply returns_bind.
    eapply returns_mono.
    { apply (IH n); [lia|done|]. by eapply pop_ok_grows. }
    intros rest w'' (Hok'' & Hrest & Hg' & Hlen'). apply returns_ret.
    repeat split; [done| |by eapply grows_trans|].
    + apply Forall_app. split; [|done].
      eapply Forall_impl; [exact Hkids|]. intros r Hr.
      by eapply allocated_grows.
    + rewrite length_app. lia.
Qed.
End Loop.

(** ** The Run Result *)

Lemma qmax_cases (x y : Q) :
  (qmax x y = x ∧ (y <= x)%Q) ∨ (qmax x y = y ∧ (x < y)%Q).
Proof.
  unfold qmax. destruct (Qltb x y) eqn:Hxy.
  - right. split; [done|]. by apply Qltb_lt.
  - left. split; [done|]. apply Qltb_ge in Hxy. by apply Qnot_lt_le.
Qed.

Lemma foldl_qmax_spec (l : list Q) (x : Q) :
  (foldl qmax x l = x ∨ foldl qmax x l ∈ l) ∧
  (x <= foldl qmax x l)%Q ∧
  Forall (λ y, (y <= foldl qmax x l)%Q) l.
Proof.
  revert x. induction l as [|y l IH]; intros x; cbn.
  { split; [by left|]. split; [apply Qle_refl|constructor]. }
  destruct (IH (qmax x y)) as (Hin & Hle & Hall).
  destruct (qmax_cases x y) as [[Heq Hyx]|[Heq Hxy]]; rewrite Heq in *.
  - split; [destruct Hin; [by left|right; by right]|].
    split; [done|]. constructor; [|done]. by eapply Qle_trans.
  - split; [right; destruct Hin as [->|]; [left|by right]|].
    split; [|by constructor].
    eapply Qle_trans; [|exact Hle]. by apply Qlt_le_weak.
Qed.

(** Python's [max] returns a member of the list that no member exceeds. *)
Lemma py_max_spec (l : list Q) :
  l ≠ [] → ∃ m, py_max l = Ok m ∧ m ∈ l ∧ Forall (λ y, (y <= m)%Q) l.
Proof.
  destruct l as [|x l]; [done|]. intros _. eexists. split; [done|].
  destruct (foldl_qmax_spec l x) as (Hin & Hle & Hall).
  split; [|by constructor].
  destruct Hin as [->|Hin]; [left|by right].
Qed.

(** [List.find] returns the first element that passes the test. *)
Lemma find_first {A} (p : A → bool) (l : list A) (x : A) :
  List.find p l = Some x →
  ∃ i, l !! i = Some x ∧ p x = true ∧
       ∀ j y, (j < i)%nat → l !! j = Some y → p y = false.
Proof.
  induction l as [|a l IH]; [done|]. cbn. destruct (p a) eqn:Hpa.
  - intros [= ->]. exists 0%nat. split; [done|]. split; [done|]. lia.
  - intros (i & Hi & Hpx & Hfirst)%IH. exists (S i).
    split; [done|]. split; [done|]. intros [|j] y Hj; cbn.
    + by intros [= <-].
    + apply Hfirst. lia.
Qed.

Lemma find_is_Some {A} (p : A → bool) (l : list A) (x : A) :
  x ∈ l → p x = true → is_Some (List.find p l).
Proof.
  intros Hx Hp. destruct (List.find p l) eqn:Hf; [by eexists|].
  exfalso. apply list_elem_of_In in Hx.
  pose proof (find_none p l Hf x Hx). congruence.
Qed.

(** On a Logbook whose generation indices count up from 0, [run_result]
    returns the largest recorded maximum value and the smallest
    generation whose record compares equal to it. *)
Lemma run_result_spec (records : list record) :
  records ≠ [] →
  gen <$> records = seq 0 (length records) →
  ∃ e v entry,
    run_result records = Ok (Some e, v) ∧
    v ∈ (λ r, (max r).2) <$> records ∧
    Forall (λ r, ((max r).2 <= v)%Q) records ∧
    (e < length records)%nat ∧
    records !! e = Some entry ∧
    gen entry = e ∧
    Qeq_bool (max entry).2 v = true ∧
    ∀ e' r, (e' < e)%nat → records !! e' = Some r →
            Qeq_bool (max r).2 v = false.
Proof.
  intros Hne Hgen. unfold run_result.
  destruct (py_max_spec ((λ r, (max r).2) <$> records)) as (v & Hv & Hin & Hall).
  { by destruct records. }
  rewrite Hv. cbn.
  apply list_elem_of_fmap in Hin as Hin'. destruct Hin' as (r0 & Hr0 & Hr0in).
  destruct (find_is_Some (λ entry, Qeq_bool (max entry).2 v) records r0)
    as [entry Hfind]; [done|by rewrite <- Hr0; apply Qeq_bool_refl|].
  rewrite Hfind. cbn.
  apply find_first in Hfind as (i & Hi & Hp & Hfirst).
  assert (gen entry = i) as Hgi.
  { assert ((gen <$> records) !! i = Some (gen entry)) as Hl
      by (by rewrite list_lookup_fmap, Hi).
    rewrite Hgen in Hl. apply lookup_seq in Hl as [Hl _]. lia. }
  exists i, v, entry. rewrite Hgi.
  split; [done|]. split; [done|]. split.
  { apply Forall_forall. intros r Hr.
    eapply (proj1 (Forall_forall _ _) Hall), list_elem_of_fmap. eauto. }
  split; [by eapply lookup_lt_Some|]. eauto.
Qed.

(** ** A whole run *)

Lemma evalKnapsack_in_range (s : gset Z) (items : gmap Z (Z * Q)) :
  table_ok items → in_range s →
  evalKnapsack s items =
    if MAX_WEIGHT <? total_weight s items then Ok penalty
    else Ok (total_weight s items, total_value s items).
Proof.
  intros [Hdom _] Hs. rewrite evalKnapsack_keys.
  - pose proof (in_range_len s Hs). unfold MAX_ITEM.
    destruct (Z.ltb_spec 50 (len s)); [lia|]. done.
  - rewrite Hdom. by apply in_range_universe.
Qed.

Section Evolution.
Context {G : Type} `{!PyRandom G} `{!Selector}.
Implicit Types w : world G.
Implicit Types pop : list scored.

Lemma evaluate_ok items w r :
  table_ok items → store_ok w → allocated w r →
  returns (evaluate items r) w (λ _ w', w' = w).
Proof.
  intros Ht Hok Hr. destruct (allocated_lookup w r) as (s & Hs & Hin); [done..|].
  unfold evaluate. apply returns_bind, (returns_deref _ s); [done|].
  rewrite evalKnapsack_in_range by done.
  destruct (MAX_WEIGHT <? _); by eapply returns_lift.
Qed.

Lemma evaluate_all_ok items w (rs : list ref) :
  table_ok items → store_ok w → Forall (allocated w) rs →
  returns (evaluate_all items rs) w (λ sc w', w' = w ∧ sc.*1 = rs).
Proof.
  intros Ht Hok Hrs. unfold evaluate_all. eapply returns_mono.
  { apply (returns_mapM _ (λ v, v = w) (λ r (y : scored), y.1 = r)); [done|].
    intros r v Hr ->. apply returns_bind.
    eapply returns_mono.
    { apply evaluate_ok; [done..|]. by eapply Forall_forall in Hrs. }
    intros fit w' ->. by apply returns_ret. }
  cbn beta. intros sc w' [Hsc ->]. split; [done|].
  clear -Hsc. induction Hsc as [|r y rs sc Hy _ IH]; [done|].
  cbn. by rewrite IH, Hy.
Qed.

Lemma compile_ok g pop w :
  pop ≠ [] → returns (compile g pop) w (λ r w', w' = w ∧ gen r = g).
Proof.
  intros Hne. unfold compile. destruct pop as [|p pop]; [done|].
  apply returns_bind. eapply returns_lift; [done|]. by apply returns_ret.
Qed.

Lemma pop_ok_fst w (sc : list scored) :
  Forall (allocated w) sc.*1 → pop_ok w sc.
Proof.
  unfold pop_ok. induction sc as [|p sc IH]; cbn; [done|].
  intros [Hp Hsc]%Forall_cons. constructor; auto.
Qed.

Lemma select_pop_ok w (pool : list scored) mu :
  pop_ok w pool → pop_ok w (select pool mu).
Proof.
  intros Hpool. apply Forall_forall. intros p Hp%select_sub.
  by eapply Forall_forall in Hpool.
Qed.

Lemma generation_ok items mu lambda_ cxpb mutpb g pop w :
  table_ok items → (0 < mu)%nat → length pop = mu →
  store_ok w → pop_ok w pop →
  returns (generation items mu lambda_ cxpb mutpb g pop) w
    (λ pr w', store_ok w' ∧ pop_ok w' pr.1 ∧ length pr.1 = mu ∧ gen pr.2 = g).
Proof.
  intros Ht Hmu Hlen Hok Hpop. unfold generation.
  assert (pop ≠ []) as Hne by (destruct pop; [cbn in *; lia|done]).
  apply returns_bind. eapply returns_mono; [by apply offspring_ok|].
  intros kids w1 (Hok1 & Hkids & Hg1 & _).
  apply returns_bind. eapply returns_mono; [by apply evaluate_all_ok|].
  intros kids' w2 (-> & Hfst).
  assert (length (select (pop ++ kids') mu) = mu) as Hsel.
  { apply select_length. rewrite length_app. lia. }
  apply returns_bind. eapply returns_mono.
  { apply compile_ok. intros Hnil. rewrite Hnil in Hsel. cbn in Hsel. lia. }
  intros r w3 (-> & Hgen). apply returns_ret. cbn.
  split; [done|]. split; [|done].
  apply select_pop_ok, Forall_app. split; [by eapply pop_ok_grows|].
  apply pop_ok_fst. by rewrite Hfst.
Qed.

Lemma generations_ok items mu lambda_ cxpb mutpb n g pop w :
  table_ok items → (0 < mu)%nat → length pop = mu →
  store_ok w → pop_ok w pop →
  returns (generations items mu lambda_ cxpb mutpb n g pop) w
    (λ prs w', store_ok w' ∧ pop_ok w' prs.1 ∧ length prs.1 = mu ∧
               gen <$> prs.2 = seq g n).
Proof.
  intros Ht Hmu. revert g pop w.
  induction n as [|n IH]; intros g pop w Hlen Hok Hpop; cbn [generations].
  { by apply returns_ret. }
  apply returns_bind. eapply returns_mono; [by apply generation_ok|].
  intros [pop1 r] w1 (Hok1 & Hpop1 & Hlen1 & Hg). cbn [fst snd] in *.
  apply returns_bind. eapply returns_mono; [by apply IH|].
  intros [pop2 rs] w2 (Hok2 & Hpop2 & Hlen2 & Hgs). cbn [fst snd] in *.
  apply returns_ret. cbn. by rewrite Hg, Hgs.
Qed.

Lemma eaMuPlusLambda_ok items (inds : list ref) mu lambda_ cxpb mutpb ngen w :
  table_ok items → (0 < mu)%nat → length inds = mu →
  store_ok w → Forall (allocated w) inds →
  returns (eaMuPlusLambda items inds mu lambda_ cxpb mutpb ngen) w
    (λ prs w', store_ok w' ∧ pop_ok w' prs.1 ∧ length prs.1 = mu ∧
               gen <$> prs.2 = seq 0 (S ngen)).
Proof.
  intros Ht Hmu Hlen Hok Hinds. unfold eaMuPlusLambda.
  apply returns_bind. eapply returns_mono; [by apply evaluate_all_ok|].
  intros pop0 w0 (-> & Hfst).
  assert (length pop0 = mu) as Hlen0.
  { by rewrite <- Hlen, <- Hfst, length_fmap. }
  assert (pop_ok w pop0) as Hpop0.
  { apply pop_ok_fst. by rewrite Hfst. }
  apply returns_bind. eapply returns_mono.
  { apply compile_ok. destruct pop0; [cbn in *; lia|done]. }
  intros r0 w1 (-> & Hg0).
  apply returns_bind. eapply returns_mono; [by apply generations_ok|].
  intros [pop1 rs] w1 (Hok1 & Hpop1 & Hlen1 & Hgs). cbn [fst snd] in *.
  apply returns_ret. cbn. by rewrite Hg0, Hgs.
Qed.

(** The generator state at the call does not matter: [evolve] reseeds. *)
Lemma evolve_reseeds cxpb mutpb seed w (g : G) :
  evolve cxpb mutpb seed w = evolve cxpb mutpb seed (World (heap w) g).
Proof. reflexivity. Qed.

(** From a store within the item indices the evolution returns, with a
    Logbook whose generation indices are 0 .. NGEN, and leaves such a
    store. *)
Lemma evolve_ok cxpb mutpb seed w :
  store_ok w →
  returns (evolve cxpb mutpb seed) w
    (λ prs w', store_ok w' ∧ pop_ok w' prs.1 ∧ length prs.1 = MU ∧
               gen <$> prs.2 = seq 0 (S NGEN)).
Proof.
  intros Hok. unfold evolve.
  apply returns_bind. eexists _, _. split; [reflexivity|].
  apply returns_bind. eapply returns_mono; [apply create_items_ok|].
  intros items w1 [Ht Hw1].
  apply returns_bind. eapply returns_mono.
  { apply (population_ok MU). unfold store_ok. by rewrite Hw1. }
  intros inds w2 (Hok2 & Hinds & _ & Hlen).
  apply eaMuPlusLambda_ok; [done|unfold MU; lia|done..].
Qed.
End Evolution.

Section RunEa.
Context {G : Type} `{!PyRandom G} `{!Selector}.
Implicit Types w : world G.

(** [run_ea] returns, whatever the state it is called in, and what it
    returns depends on its three arguments only. *)
Lemma run_ea_returns cxpb mutpb seed :
  ∃ pop logbook (w1 : world G) e v entry,
    (∀ g, evolve cxpb mutpb seed (World [] g) = Ok ((pop, logbook), w1)) ∧
    (∀ w, run_ea cxpb mutpb seed w = Ok ((Some e, v), World (heap w) (rng w1))) ∧
    store_ok w1 ∧
    gen <$> logbook = seq 0 (S NGEN) ∧
    v ∈ (λ r, (max r).2) <$> logbook ∧
    Forall (λ r, ((max r).2 <= v)%Q) logbook ∧
    (e ≤ NGEN)%nat ∧
    logbook !! e = Some entry ∧
    gen entry = e ∧
    Qeq_bool (max entry).2 v = true ∧
    ∀ e' r, (e' < e)%nat → logbook !! e' = Some r →
            Qeq_bool (max r).2 v = false.
Proof.
  destruct (evolve_ok cxpb mutpb seed (World [] (seed_state seed)))
    as ([pop logbook] & w1 & Hev & Hok1 & _ & _ & Hgen); [constructor|].
  cbn [fst snd] in Hgen.
  assert (length logbook = S NGEN) as Hlen.
  { by rewrite <- (length_fmap gen), Hgen, length_seq. }
  destruct (run_result_spec logbook)
    as (e & v & entry & Hres & Hin & Hall & He & Hentry & Hge & Heq & Hfirst).
  { intros ->. done. }
  { by rewrite Hlen. }
  exists pop, logbook, w1, e, v, entry.
  assert (∀ g, evolve cxpb mutpb seed (World [] g) = Ok (pop, logbook, w1))
    as Hevg.
  { intros g. by rewrite (evolve_reseeds _ _ _ _ (seed_state seed)). }
  split; [done|]. split.
  { intros w. unfold run_ea, fresh_store, mbind, Py_bind.
    rewrite Hevg. cbn. by rewrite Hres. }
  rewrite Hlen in He. repeat split; try done. lia.
Qed.
End RunEa.

(** C5: every run completes and produces a Logbook of exactly 101
    Generation Records, numbered 0 to 100 in order; the Run Result is
    derived from it: [overall_max_value] is a recorded maximum value that
    no record exceeds, and [earliest_generation] is the smallest
    generation whose recorded maximum value compares equal to it with
    [==]; it is an integer of [0, 100], never None. *)
Theorem run_ea_logbook {G} `{!PyRandom G} `{!Selector}
    (cxpb mutpb : Q) (seed : Z) (w : world G) :
  ∃ pop logbook w1 e v entry,
    evolve cxpb mutpb seed (World [] (rng w)) = Ok ((pop, logbook), w1) ∧
    length logbook = 101%nat ∧
    gen <$> logbook = seq 0 101 ∧
    run_ea cxpb mutpb seed w = Ok ((Some e, v), World (heap w) (rng w1)) ∧
    v ∈ (λ r, (max r).2) <$> logbook ∧
    Forall (λ r, ((max r).2 <= v)%Q) logbook ∧
    (0 ≤ e ≤ 100)%nat ∧
    logbook !! e = Some entry ∧
    gen entry = e ∧
    Qeq_bool (max entry).2 v = true ∧
    ∀ e' r, (e' < e)%nat → logbook !! e' = Some r →
            Qeq_bool (max r).2 v = false.
Proof.
  destruct (run_ea_returns cxpb mutpb seed)
    as (pop & logbook & w1 & e & v & entry & Hev & Hrun & _ & Hgen & Hin &
        Hall & He & Hentry & Hge & Heq & Hfirst).
  exists pop, logbook, w1, e, v, entry.
  split; [apply Hev|]. split.
  { by rewrite <- (length_fmap gen), Hgen, length_seq. }
  split; [done|]. split; [apply Hrun|].
  unfold NGEN in He. repeat split; try done; lia.
Qed.

(** C6: [run_ea] is deterministic in its arguments. Whatever the state
    of the generator and of the store at the two calls, two runs with
    the same [(cxpb, mutpb, seed)] yield the same population, the same
    Logbook, the same store of individuals and the same final generator
    state, and return the same Run Result. *)
Theorem run_ea_deterministic {G} `{!PyRandom G} `{!Selector}
    (cxpb mutpb : Q) (seed : Z) (w w' : world G) :
  evolve cxpb mutpb seed (World [] (rng w))
    = evolve cxpb mutpb seed (World [] (rng w')) ∧
  ∃ res g,
    run_ea cxpb mutpb seed w = Ok (res, World (heap w) g) ∧
    run_ea cxpb mutpb seed w' = Ok (res, World (heap w') g).
Proof.
  destruct (run_ea_returns cxpb mutpb seed)
    as (pop & logbook & w1 & e & v & entry & Hev & Hrun & _).
  split; [by rewrite !Hev|]. exists (Some e, v), (rng w1). by rewrite !Hrun.
Qed.

(** ** Reachable individuals and their fitness *)

Lemma fold_left_Qplus_nonneg (l : list Q) (a : Q) :
  (0 <= a)%Q → Forall (λ x, (0 <= x)%Q) l → (0 <= fold_left Qplus l a)%Q.
Proof.
  revert a. induction l as [|x l IH]; intros a Ha Hl; cbn; [done|].
  apply Forall_cons in Hl as [Hx Hl]. apply IH; [|done].
  replace 0%Q with (0 + 0)%Q by done. by apply Qplus_le_compat.
Qed.

Lemma total_value_nonneg (s : gset Z) (items : gmap Z (Z * Q)) :
  table_ok items → (0 <= total_value s items)%Q.
Proof.
  intros [_ Hb]. unfold total_value, sum_float.
  apply fold_left_Qplus_nonneg; [done|]. apply Forall_fmap, Forall_forall.
  intros i _. cbn. unfold item_value.
  destruct (items !! i) as [[wt v]|] eqn:Hi; [|done].
  by destruct (Hb i wt v Hi) as (_ & ? & _).
Qed.

(** What [evalKnapsack] does on an individual within the item indices,
    for a table as [create_items] builds it. *)
Lemma evalKnapsack_reachable (s : gset Z) (items : gmap Z (Z * Q)) :
  table_ok items → in_range s →
  s ⊆ dom items ∧ len s ≤ MAX_ITEM ∧
  ∃ f, evalKnapsack s items = Ok f ∧
       (f = penalty ↔ MAX_WEIGHT < total_weight s items) ∧
       (f ≠ penalty → f = (total_weight s items, total_value s items)).
Proof.
  intros Ht Hs. split; [|split].
  - destruct Ht as [-> _]. by apply in_range_universe.
  - pose proof (in_range_len s Hs). unfold MAX_ITEM. lia.
  - rewrite evalKnapsack_in_range by done. unfold MAX_WEIGHT, penalty.
    destruct (Z.ltb_spec 50 (total_weight s items)) as [Hw|Hw].
    + eexists. split; [done|]. split; [done|]. by intros [].
    + eexists. split; [done|]. split; [|done].
      split; [|lia]. intros [= Hw' _]. lia.
Qed.

Lemma dominates_penalty (s : gset Z) (items : gmap Z (Z * Q)) (f : Z * Q) :
  table_ok items → in_range s → evalKnapsack s items = Ok f →
  dominates penalty f = false ∧
  (f = penalty ∨ (f.1 ≤ MAX_WEIGHT ∧ dominates f penalty = true)).
Proof.
  intros Ht Hs. rewrite evalKnapsack_in_range by done.
  unfold MAX_WEIGHT, penalty, dominates.
  destruct (Z.ltb_spec 50 (total_weight s items)) as [Hw|Hw]; intros [= <-].
  - split; [|by left]. vm_compute. reflexivity.
  - cbn [fst snd]. split.
    + destruct (Z.leb_spec 10000 (total_weight s items)); [lia|done].
    + right. split; [done|].
      destruct (Z.leb_spec (total_weight s items) 10000); [|lia].
      destruct (Z.ltb_spec (total_weight s items) 10000); [|lia].
      pose proof (total_value_nonneg s items Ht) as Hv.
      apply Qle_bool_iff in Hv. rewrite Hv. done.
Qed.

Example dominates_examples :
  dominates (12, 30%Q) (10000, 0%Q) = true ∧
  dominates (10000, 0%Q) (12, 30%Q) = false ∧
  dominates (12, 30%Q) (12, 30%Q) = false ∧
  dominates (12, 30%Q) (10, 20%Q) = false.
Proof. vm_compute. repeat split. Qed.

(** C9: for the item table of any seed and every individual within the
    item indices, the penalty fitness [(10000, 0)] does not dominate the
    fitness [evalKnapsack] returns, and every fitness returned by the
    non-penalty branch has weight at most 50 and dominates the penalty
    fitness. *)
Theorem penalty_dominance {G} `{!PyRandom G} (seed : Z) (w : world G) :
  returns (create_items seed) w (λ items _,
    ∀ s f, in_range s → evalKnapsack s items = Ok f →
      dominates (10000, 0%Q) f = false ∧
      (f = (10000, 0%Q) ∨
       (f = (total_weight s items, total_value s items) ∧
        f.1 ≤ 50 ∧ dominates f (10000, 0%Q) = true))).
Proof.
  eapply returns_mono; [apply create_items_ok|].
  intros items w' [Ht _] s f Hs Hf.
  destruct (dominates_penalty s items f Ht Hs Hf) as [Hnd Hd].
  split; [done|].
  destruct (evalKnapsack_reachable s items Ht Hs)
    as (_ & _ & f' & Hf' & _ & Hnp).
  assert (f' = f) as -> by congruence.
  destruct Hd as [->|[Hw Hd]]; [by left|].
  right. split; [|done]. apply Hnp. intros ->.
  unfold MAX_WEIGHT, penalty in Hw. cbn in Hw. lia.
Qed.

Lemma penalty_dominance_witness :
  ∃ items w',
    @create_items Z lcg 1 (World [] 7) = Ok (items, w') ∧
    evalKnapsack ∅ items = Ok (0, 0%Q) ∧
    dominates (0, 0%Q) (10000, 0%Q) = true.
Proof.
  destruct (@penalty_dominance Z lcg 1 (World [] 7)) as (items & w' & Hc & Hd).
  exists items, w'. split; [exact Hc|]. split; [reflexivity|].
  destruct (Hd ∅ (0, 0%Q)) as (_ & [Hp|(_ & _ & Hdom)]).
  - intros x Hx. exfalso. exact (not_elem_of_empty (C:=gset Z) x Hx).
  - reflexivity.
  - discriminate Hp.
  - exact Hdom.
Defined.

(** C10: starting from a store whose objects are subsets of [0, 20), a
    new individual, [mutSet] and [cxSet] leave such a store; a run, which
    starts from an empty store, returns without raising and leaves such a
    store, its final population included. For the item table of the run
    and every subset [s] of [0, 20): the members of [s] are keys of the
    table, [len(s) > MAX_ITEM] is false, [evalKnapsack] returns, and it
    returns the penalty if and only if the total weight exceeds 50. *)
Theorem individuals_in_range {G} `{!PyRandom G} `{!Selector}
    (cxpb mutpb : Q) (seed : Z) (w : world G) :
  store_ok w →
  returns individual w (λ r w', store_ok w' ∧ allocated w' r) ∧
  (∀ ind, allocated w ind →
     returns (mutSet ind) w (λ _ w', store_ok w')) ∧
  (∀ ind1 ind2, allocated w ind1 → allocated w ind2 →
     returns (cxSet ind1 ind2) w (λ _ w', store_ok w')) ∧
  returns (evolve cxpb mutpb seed) (World [] (rng w)) (λ prs w',
    store_ok w' ∧
    Forall (λ p : scored, ∃ s, heap w' !! p.1 = Some s ∧ in_range s) prs.1) ∧
  returns (create_items seed) w (λ items _,
    ∀ s, in_range s →
      s ⊆ dom items ∧
      ¬ (MAX_ITEM < len s) ∧
      ∃ f, evalKnapsack s items = Ok f ∧
           (f = (10000, 0%Q) ↔ MAX_WEIGHT < total_weight s items)).
Proof.
  intros Hok. split; [|split; [|split; [|split]]].
  - eapply returns_mono; [by apply individual_ok|].
    by intros r w' (? & ? & _).
  - intros ind Hind. eapply returns_mono; [by apply mutSet_ok|].
    by intros r w' (_ & ? & _).
  - intros ind1 ind2 H1 H2. eapply returns_mono; [by apply cxSet_ok|].
    by intros r w' (_ & ? & _).
  - eapply returns_mono; [apply evolve_ok; constructor|].
    intros [pop logbook] w' (Hok' & Hpop & _). split; [done|].
    eapply Forall_impl; [exact Hpop|]. intros p Hp.
    by apply allocated_lookup.
  - eapply returns_mono; [apply create_items_ok|].
    intros items w' [Ht _] s Hs.
    destruct (evalKnapsack_reachable s items Ht Hs)
      as (Hsub & Hlen & f & Hf & Hpen & _).
    split; [done|]. split; [lia|]. by exists f.
Qed.

Lemma individuals_in_range_witness :
  @returns Z _ (@individual Z lcg) (World [] 7)
    (λ r w', store_ok w' ∧ allocated w' r).
Proof.
  apply (@individuals_in_range Z lcg take_selector (1 # 2) (1 # 2) 1
           (World [] 7)).
  constructor.
Defined.

(** ** The sweep *)

Lemma Forall2_fmap_eq {A B C} (f : B → C) (g : A → C) (l : list A)
    (k : list B) :
  Forall2 (λ x y, f y = g x) l k → f <$> k = g <$> l.
Proof. induction 1 as [|x y l k Hxy _ IH]; [done|]. cbn. by rewrite Hxy, IH. Qed.

Lemma fmap_eq_elem {A B} (f g : A → B) (l : list A) (x : A) :
  f <$> l = g <$> l → x ∈ l → f x = g x.
Proof.
  induction l as [|a l IH]; intros Heq Hx; [by inversion Hx|].
  injection Heq as Ha Hl. inversion Hx; subst; auto.
Qed.

Lemma round1_cxpb :
  (λ i, round1 (float_of_int i / 10)) <$> seqZ 0 11
  = (λ i, Qmake i 10) <$> seqZ 0 11.
Proof. vm_compute. reflexivity. Qed.

Lemma round1_mutpb :
  (λ i, round1 (1 - float_of_int i / 10)) <$> seqZ 0 11
  = (λ i, Qmake (10 - i) 10) <$> seqZ 0 11.
Proof. vm_compute. reflexivity. Qed.

(** [1 - cxpb], computed on the float of the tenth [cxpb] and rounded to
    one decimal, is the complementary tenth. *)
Lemma round1_complement :
  Forall (λ i, round1 (1 - float_of_Q (Qmake i 10)) = Qmake (10 - i) 10)
         (seqZ 0 11).
Proof. repeat constructor. Qed.

(** The difference itself is not always a tenth: [1 - 0.7] is the float
    0.30000000000000004, which the rounding takes to 0.3. *)
Lemma float_difference_inexact :
  (1 - float_of_int 7 / 10)%float = 0.30000000000000004%float ∧
  (float_of_Q (3 # 10) <? 1 - float_of_int 7 / 10)%float = true ∧
  round1 (1 - float_of_int 7 / 10) = 3 # 10.
Proof. vm_compute. repeat split. Qed.

Example round1_ties :
  round1 0.25 = 2 # 10 ∧ round1 0.75 = 8 # 10 ∧
  round1 0.35 = 3 # 10 ∧ round1 (1 - float_of_int 3 / 10) = 7 # 10.
Proof. vm_compute. repeat split. Qed.

Section SweepProps.
Context {G : Type} `{!PyRandom G} `{!Selector}.
Implicit Types w : world G.

Lemma sweep_cell_ok seed i w :
  0 ≤ i < 11 →
  returns (sweep_cell seed i) w (λ r w',
    heap w' = heap w ∧
    row_key r = (seed, Qmake i 10, Qmake (10 - i) 10) ∧
    ∀ v, ∃ v', run_ea (row_cxpb r) (row_mutpb r) (row_seed r) v
               = Ok ((row_earliest_gen r, row_max_val r), v')).
Proof.
  intros Hi. unfold sweep_cell.
  destruct (run_ea_returns (round1 (float_of_int i / 10))
              (round1 (1 - float_of_int i / 10)) seed)
    as (pop & logbook & w1 & e & v & entry & _ & Hrun & _).
  apply returns_bind. eexists _, _. split; [apply Hrun|].
  apply returns_ret. cbn. split; [done|]. split; [|by eauto].
  unfold row_key. cbn.
  assert (i ∈ seqZ 0 11) as Hin by (apply elem_of_seqZ; lia).
  pose proof (fmap_eq_elem _ _ _ i round1_cxpb Hin) as Hc.
  pose proof (fmap_eq_elem _ _ _ i round1_mutpb Hin) as Hm.
  cbn beta in Hc, Hm. by rewrite Hc, Hm.
Qed.

Lemma sweep_seed_ok seed w :
  returns (sweep_seed seed) w (λ rs w',
    heap w' = heap w ∧
    row_key <$> rs = grid_seed seed ∧
    Forall (λ r, ∀ v, ∃ v', run_ea (row_cxpb r) (row_mutpb r) (row_seed r) v
                            = Ok ((row_earliest_gen r, row_max_val r), v')) rs).
Proof.
  unfold sweep_seed. eapply returns_mono.
  { apply (returns_mapM _ (λ v, heap v = heap w)
             (λ i r, row_key r = (seed, Qmake i 10, Qmake (10 - i) 10) ∧
                ∀ v, ∃ v', run_ea (row_cxpb r) (row_mutpb r) (row_seed r) v
                           = Ok ((row_earliest_gen r, row_max_val r), v')));
      [done|].
    intros i v Hi%elem_of_seqZ Hv. eapply returns_mono.
    { apply sweep_cell_ok. lia. }
    cbn beta. intros r v' (Hv' & Hk & Hr). split; [done|congruence]. }
  cbn beta. intros rs w' [Hrs Hw']. split; [done|]. split.
  - unfold grid_seed. apply Forall2_fmap_eq.
    eapply Forall2_impl; [exact Hrs|]. by intros i r [Hk _].
  - clear -Hrs. induction Hrs as [|i r l rs [_ Hr] _ IH]; constructor; auto.
Qed.

Lemma sweep_ok w :
  returns sweep w (λ rows w',
    heap w' = heap w ∧
    row_key <$> rows = grid ∧
    Forall (λ r, ∀ v, ∃ v', run_ea (row_cxpb r) (row_mutpb r) (row_seed r) v
                            = Ok ((row_earliest_gen r, row_max_val r), v')) rows).
Proof.
  unfold sweep. apply returns_bind. eapply returns_mono.
  { apply (returns_mapM _ (λ v, heap v = heap w)
             (λ seed rs, row_key <$> rs = grid_seed seed ∧
                Forall (λ r, ∀ v, ∃ v',
                  run_ea (row_cxpb r) (row_mutpb r) (row_seed r) v
                  = Ok ((row_earliest_gen r, row_max_val r), v')) rs));
      [done|].
    intros seed v _ Hv. eapply returns_mono; [apply sweep_seed_ok|].
    cbn beta. intros rs v' (Hv' & Hk & Hr). split; [done|congruence]. }
  cbn beta. intros rowss w' [Hrs Hw']. apply returns_ret.
  split; [done|]. split.
  - unfold grid. clear -Hrs.
    induction Hrs as [|seed rs l rowss [Hk _] _ IH]; [done|].
    cbn. by rewrite fmap_app, Hk, IH.
  - clear -Hrs. induction Hrs as [|seed rs l rowss [_ Hr] _ IH]; cbn.
    + constructor.
    + by apply Forall_app.
Qed.
End SweepProps.

(** C7: the sweep returns exactly 319 rows, one for each seed of 1..29
    and each [i] of 0..10 in the order of the loops; each row holds what
    [run_ea] returns for its seed and pair. The pair of a row is
    [round(i / 10, 1)] and [round(1 - i / 10, 1)], quotient and
    difference being those of binary64, and these are the tenths [i/10]
    and [(10-i)/10]. For any one seed the inner loop returns 11 rows,
    whose [cxpb] are 0.0, 0.1, ..., 1.0 and whose [mutpb] is [1 - cxpb]
    rounded to one decimal. The rounding is needed: the float
    [1 - 7 / 10] is above three tenths. *)
Theorem sweep_spec {G} `{!PyRandom G} `{!Selector} (seed : Z) (w : world G) :
  (∃ rows w', sweep w = Ok (rows, w') ∧
     length rows = 319%nat ∧
     row_key <$> rows = grid ∧
     Forall (λ r, ∀ v, ∃ v',
       run_ea (row_cxpb r) (row_mutpb r) (row_seed r) v
       = Ok ((row_earliest_gen r, row_max_val r), v')) rows) ∧
  (∃ rs w', sweep_seed seed w = Ok (rs, w') ∧
     length rs = 11%nat ∧
     row_cxpb <$> rs = (λ i, round1 (float_of_int i / 10)) <$> seqZ 0 11 ∧
     row_mutpb <$> rs
       = (λ i, round1 (1 - float_of_int i / 10)) <$> seqZ 0 11 ∧
     row_cxpb <$> rs = (λ i, Qmake i 10) <$> seqZ 0 11 ∧
     Forall (λ r, row_seed r = seed ∧
                  row_mutpb r = round1 (1 - float_of_Q (row_cxpb r))) rs) ∧
  (3 # 10 < Q_of_float (1 - float_of_int 7 / 10))%Q.
Proof.
  split; [|split].
  - destruct (sweep_ok w) as (rows & w' & Hs & _ & Hk & Hr).
    exists rows, w'. split; [done|]. split; [|done].
    by rewrite <- (length_fmap row_key), Hk.
  - destruct (sweep_seed_ok seed w) as (rs & w' & Hs & _ & Hk & _).
    exists rs, w'. split; [done|]. split.
    { by rewrite <- (length_fmap row_key), Hk. }
    unfold grid_seed in Hk.
    assert (row_cxpb <$> rs = (λ i, Qmake i 10) <$> seqZ 0 11) as Hcx.
    { apply (f_equal (fmap (λ k : Z * Q * Q, k.1.2))) in Hk.
      rewrite <- !list_fmap_compose in Hk. exact Hk. }
    assert (row_mutpb <$> rs = (λ i, Qmake (10 - i) 10) <$> seqZ 0 11) as Hmu.
    { apply (f_equal (fmap (λ k : Z * Q * Q, k.2))) in Hk.
      rewrite <- !list_fmap_compose in Hk. exact Hk. }
    split; [by rewrite round1_cxpb|]. split; [by rewrite round1_mutpb|].
    split; [exact Hcx|].
    apply Forall_forall. intros r Hr.
    apply list_elem_of_lookup in Hr as [n Hn].
    apply (f_equal (λ l, l !! n)) in Hk.
    rewrite !list_lookup_fmap, Hn in Hk. cbn in Hk.
    destruct (seqZ 0 11 !! n) as [i|] eqn:Hi; [|done].
    cbn in Hk. injection Hk as Hseed Hc Hm. split; [done|].
    rewrite Hc, Hm. symmetry.
    eapply (proj1 (Forall_forall _ _) round1_complement).
    by eapply list_elem_of_lookup_2.
  - vm_compute. reflexivity.
Qed.

(** ** The aggregation *)

Lemma combo_eqb_refl (a : combo) : combo_eqb a a = true.
Proof. unfold combo_eqb. by rewrite !Qeq_bool_refl. Qed.

Lemma combo_eqb_sym (a b : combo) : combo_eqb a b = combo_eqb b a.
Proof. unfold combo_eqb. by rewrite (Qeq_bool_comm a.1), (Qeq_bool_comm a.2). Qed.

Lemma combo_eqb_trans (a b c : combo) :
  combo_eqb a b = true → combo_eqb b c = true → combo_eqb a c = true.
Proof.
  unfold combo_eqb. rewrite !andb_true_iff. intros [H1 H2] [H3 H4].
  split; eapply Qeq_bool_trans; eauto.
Qed.

(** [dict_append] extends the list of the first entry whose key compares
    equal, or adds an entry at the end when there is none. *)
Lemma dict_append_cases key x d :
  (∃ d1 k xs d2,
     d = d1 ++ (k, xs) :: d2 ∧
     Forall (λ e, combo_eqb e.1 key = false) d1 ∧
     combo_eqb k key = true ∧
     dict_append key x d = d1 ++ (k, xs ++ [x]) :: d2) ∨
  (Forall (λ e, combo_eqb e.1 key = false) d ∧
   dict_append key x d = d ++ [(key, [x])]).
Proof.
  induction d as [|[k xs] d IH]; cbn; [right; by split|].
  destruct (combo_eqb k key) eqn:Hk.
  - left. exists [], k, xs, d. by split; [|split; [constructor|]].
  - destruct IH as [(d1 & k' & xs' & d2 & -> & Hd1 & Hk' & ->)|[Hd ->]].
    + left. exists ((k, xs) :: d1), k', xs', d2.
      split; [done|]. split; [by constructor|]. by split.
    + right. split; [by constructor|done].
Qed.

Lemma group_rows_snoc (results : list row) (r : row) :
  group_rows (results ++ [r])
  = dict_append (row_combo r) (row_run r) (group_rows results).
Proof. unfold group_rows. by rewrite foldl_app. Qed.

Lemma members_snoc k results r :
  members k (results ++ [r])
  = members k results ++ (if combo_eqb k (row_combo r) then [row_run r] else []).
Proof.
  unfold members. rewrite filter_app, fmap_app. f_equal.
  destruct (combo_eqb k (row_combo r)) eqn:Hk.
  - by rewrite filter_cons_True.
  - rewrite filter_cons_False; [done|]. by rewrite Hk.
Qed.

Lemma filter_none {A} (P : A → Prop) `{!∀ x, Decision (P x)} (l : list A) :
  Forall (λ x, ¬ P x) l → filter P l = [].
Proof.
  induction 1 as [|x l Hx _ IH]; [done|]. by rewrite filter_cons_False.
Qed.

Lemma group_rows_grouped (results : list row) :
  grouped (group_rows results) results.
Proof.
  induction results as [|r results IH] using rev_ind.
  { split; [constructor|]. split; [by intros [] ? ? ? [=]|].
    by intros r Hr%elem_of_nil. }
  rewrite group_rows_snoc. destruct IH as (Hmem & Hdist & Hcov).
  set (d := group_rows results) in *.
  destruct (dict_append_cases (row_combo r) (row_run r) d)
    as [(d1 & k & xs & d2 & Hd & Hd1 & Hk & ->)|[Hno ->]].
  - (* the pair of [r] already has an entry *)
    assert (∀ e, e ∈ d2 → combo_eqb e.1 (row_combo r) = false) as Hd2.
    { intros e [j He]%list_elem_of_lookup.
      destruct (combo_eqb e.1 (row_combo r)) eqn:Hek; [|done]. exfalso.
      assert (length d1 = (length d1 + S j)%nat) as Hij; [|lia].
      apply (Hdist _ _ (k, xs) e).
      - rewrite Hd. by apply list_lookup_middle.
      - rewrite Hd, lookup_app_r by lia.
        by replace (length d1 + S j - length d1)%nat with (S j) by lia.
      - cbn. eapply combo_eqb_trans; [exact Hk|].
        by rewrite combo_eqb_sym. }
    rewrite Hd in Hmem. apply Forall_app in Hmem as [Hm1 Hm2].
    apply Forall_cons in Hm2 as [[Hmk Hne] Hm2]. cbn in Hmk, Hne.
    split; [|split].
    + apply Forall_app. split; [|constructor].
      * eapply Forall_impl; [apply Forall_and; split; [exact Hd1|exact Hm1]|].
        intros e [He [Hem Hene]]. cbn beta in *.
        by rewrite members_snoc, He, app_nil_r.
      * cbn. rewrite members_snoc, Hk, Hmk. split; [done|].
        by destruct (members k results).
      * apply Forall_forall. intros e He.
        pose proof (Hd2 e He) as Hek.
        eapply Forall_forall in Hm2 as [Hem Hene]; [|exact He].
        by rewrite members_snoc, Hek, app_nil_r.
    + intros i j e e' Hi Hj Hee.
      assert (∀ n a, (d1 ++ (k, xs ++ [row_run r]) :: d2) !! n = Some a →
                     ∃ b, d !! n = Some b ∧ b.1 = a.1) as Hsame.
      { intros n a Hn. rewrite Hd.
        destruct (decide (n = length d1)) as [->|Hnd].
        - rewrite list_lookup_middle in Hn by done. injection Hn as <-.
          exists (k, xs). by rewrite list_lookup_middle.
        - exists a. split; [|done].
          destruct (decide (n < length d1)%nat).
          + by rewrite lookup_app_l in * by done.
          + rewrite lookup_app_r in * by lia.
            destruct (n - length d1)%nat eqn:Hz; [lia|]. done. }
      destruct (Hsame i e Hi) as (b & Hb & Hbe).
      destruct (Hsame j e' Hj) as (b' & Hb' & Hbe').
      apply (Hdist i j b b'); [done..|]. by rewrite Hbe, Hbe'.
    + intros r' [Hr'|Hr']%elem_of_app.
      * destruct (Hcov r' Hr') as (e & He & Hek). rewrite Hd in He.
        apply elem_of_app in He as [He|He].
        { exists e. split; [apply elem_of_app; by left|done]. }
        apply elem_of_cons in He as [->|He].
        { exists (k, xs ++ [row_run r]).
          split; [apply elem_of_app; right; by left|done]. }
        exists e. split; [apply elem_of_app; right; by right|done].
      * apply list_elem_of_singleton in Hr' as ->.
        exists (k, xs ++ [row_run r]).
        split; [apply elem_of_app; right; by left|done].
  - (* a new pair *)
    assert (members (row_combo r) results = []) as Hnew.
    { unfold members. rewrite filter_none; [done|].
      apply Forall_forall. intros r' Hr' Hm.
      destruct (Hcov r' Hr') as (e & He & Hek).
      eapply Forall_forall in Hno; [|exact He]. cbn beta in Hno.
      rewrite (combo_eqb_trans e.1 (row_combo r') (row_combo r)) in Hno;
        [done|done|by rewrite combo_eqb_sym]. }
    split; [|split].
    + apply Forall_app. split; [|constructor; [|constructor]].
      * eapply Forall_impl; [apply Forall_and; split; [exact Hno|exact Hmem]|].
        intros e [He [Hem Hene]]. cbn beta in *.
        by rewrite members_snoc, He, app_nil_r.
      * cbn. by rewrite members_snoc, Hnew, combo_eqb_refl.
    + intros i j e e' Hi Hj Hee.
      destruct (decide (i < length d)%nat) as [Hil|Hil];
        destruct (decide (j < length d)%nat) as [Hjl|Hjl].
      * rewrite lookup_app_l in Hi, Hj by done. by eapply Hdist.
      * rewrite lookup_app_l in Hi by done.
        rewrite lookup_app_r in Hj by lia.
        destruct (j - length d)%nat; [|done]. injection Hj as <-.
        apply list_elem_of_lookup_2 in Hi.
        eapply Forall_forall in Hno; [|exact Hi]. cbn in *. congruence.
      * rewrite lookup_app_l in Hj by done.
        rewrite lookup_app_r in Hi by lia.
        destruct (i - length d)%nat; [|done]. injection Hi as <-.
        apply list_elem_of_lookup_2 in Hj.
        eapply Forall_forall in Hno; [|exact Hj]. cbn in *.
        rewrite combo_eqb_sym in Hee. congruence.
      * rewrite lookup_app_r in Hi, Hj by lia.
        destruct (i - length d)%nat eqn:Hi0; [|done].
        destruct (j - length d)%nat eqn:Hj0; [|done]. lia.
    + intros r' [Hr'|Hr']%elem_of_app.
      * destruct (Hcov r' Hr') as (e & He & Hek).
        exists e. split; [apply elem_of_app; by left|done].
      * apply list_elem_of_singleton in Hr' as ->.
        exists (row_combo r, [row_run r]).
        split; [apply elem_of_app; right; by left|apply combo_eqb_refl].
Qed.




Section AggregationProps.
Context {F : Type} `{!NumPy F}.
Implicit Types (b s t : summary F) (l pre : list (summary F)).

Lemma mean_gen_Some (l : list (option nat)) :
  Forall is_Some l → mean_gen l = Ok (np_mean (gen_float <$> l)).
Proof.
  intros Hl. unfold mean_gen.
  rewrite (mapM_outcome_Ok _ gen_float); [done|].
  eapply Forall_impl; [exact Hl|]. by intros o [g ->].
Qed.

Lemma best_step_pick (b : best) (entry : combo * list (option nat * Q)) :
  Forall is_Some entry.2.*1 →
  best_step b entry = Ok (pick b (summarize entry)).
Proof.
  intros Hs. destruct entry as [c runs_list]. unfold best_step.
  rewrite mean_gen_Some by done. cbn [mbind outcome_bind snd].
  unfold pick, replaces, summarize. cbn [fst snd].
  set (v := np_mean runs_list.*2).
  set (g := np_mean (gen_float <$> runs_list.*1)).
  destruct b as [[[bc bv] bg]|]; [|done]. cbn [fst snd].
  destruct (f_lt bv v); [done|]. cbn [orb].
  destruct (within_tol v bv); [|done]. cbn [andb].
  by destruct (f_lt g bg).
Qed.

Lemma best_scan_foldl (b : best) (d : list (combo * list (option nat * Q))) :
  Forall (λ e, Forall is_Some e.2.*1) d →
  best_scan b d = Ok (foldl pick b (summarize <$> d)).
Proof.
  intros Hd. revert b. induction Hd as [|e d He _ IH]; intros b; [done|].
  cbn. rewrite best_step_pick by done. cbn. apply IH.
Qed.

(** Without any assumption the scan ends on one of the groups. *)
Lemma foldl_pick_elem l b :
  ∃ b', foldl pick (Some b) l = Some b' ∧ b' ∈ b :: l.
Proof.
  revert b. induction l as [|s l IH]; intros b; cbn.
  { exists b. split; [done|left]. }
  destruct (replaces b s).
  - destruct (IH s) as (b' & -> & Hin). exists b'. split; [done|by right].
  - destruct (IH b) as (b' & -> & Hin). exists b'. split; [done|].
    apply elem_of_cons in Hin as [->|Hin]; [left|right; by right].
Qed.




(** With at least one row and no generation missing, every group has
    its generations. *)
Lemma group_rows_gens (results : list row) :
  Forall (λ r, is_Some (row_earliest_gen r)) results →
  Forall (λ e : combo * list (option nat * Q), Forall is_Some e.2.*1)
         (group_rows results).
Proof.
  intros Hsome. destruct (group_rows_grouped results) as (Hmem & _).
  eapply Forall_impl; [exact Hmem|]. intros e [-> _].
  unfold members. apply Forall_fmap, Forall_fmap, Forall_forall.
  intros r [_ Hr]%list_elem_of_filter. cbn.
  by eapply Forall_forall in Hsome.
Qed.

Lemma group_rows_nonempty (results : list row) :
  results ≠ [] → group_rows results ≠ [].
Proof.
  intros Hne Hd. destruct results as [|r results]; [done|].
  destruct (group_rows_grouped (r :: results)) as (_ & _ & Hcov).
  destruct (Hcov r) as (e & He & _); [left|].
  rewrite Hd in He. by inversion He.
Qed.
End AggregationProps.

(** In exact arithmetic every list of values is a list of numbers. *)
Lemma exact_numbers (vs : list Q) : @numbers Q exact vs.
Proof.
  unfold numbers. cbn [f_lt within_tol exact].
  apply Forall_forall. intros a _. split.
  { apply not_true_iff_false. rewrite Qltb_lt. apply Qlt_irrefl. }
  apply Forall_forall. intros b _. split.
  { intros Hab%Qltb_ge Hba%Qltb_ge. apply Qltb_lt, Qabs_Qlt_condition.
    unfold tolerance. split; lra. }
  apply Forall_forall. intros c _. split.
  - rewrite !Qltb_lt. lra.
  - intros Hab%Qltb_ge Hbc%Qltb_ge. apply not_true_iff_false.
    rewrite Qltb_lt. lra.
Qed.




(** At the edge of the tolerance the two arithmetics part: 500.000000001
    and 500 are [10^-9] apart as decimals, but the float of the first is
    less than the float of [1e-9] above 500, so binary64 takes the
    tie-break and exact arithmetic does not. *)
Example aggregate_tolerance_edge :
  let rows := [ Row 1 (1 # 10) (9 # 10) (Some 10%nat)
                      (500000000001 # 1000000000);
                Row 1 (2 # 10) (8 # 10) (Some 5%nat) 500 ] in
  (∃ v g, @aggregate float binary64 rows = Ok ((2 # 10, 8 # 10), v, g)) ∧
  (∃ v g, @aggregate Q exact rows = Ok ((1 # 10, 9 # 10), v, g)).
Proof. split; eexists _, _; vm_compute; reflexivity. Qed.

(** * Further properties of the code *)

(** ** Sums *)

Lemma fold_left_Zadd (l : list Z) (a : Z) :
  fold_left Z.add l a = a + fold_left Z.add l 0.
Proof.
  revert a. induction l as [|x l IH]; intros a; cbn; [lia|].
  rewrite (IH (a + x)), (IH (0 + x)). lia.
Qed.

Lemma sum_int_cons (x : Z) (l : list Z) : sum_int (x :: l) = x + sum_int l.
Proof. unfold sum_int. cbn. by rewrite fold_left_Zadd. Qed.

Lemma sum_int_app (l k : list Z) : sum_int (l ++ k) = sum_int l + sum_int k.
Proof.
  induction l as [|x l IH]; [done|].
  cbn [app]. rewrite !sum_int_cons, IH. lia.
Qed.

Lemma sum_int_Permutation (l k : list Z) : l ≡ₚ k → sum_int l = sum_int k.
Proof.
  induction 1 as [|x l k _ IH|x y l|l k m _ IH1 _ IH2]; [done|..].
  - by rewrite !sum_int_cons, IH.
  - rewrite !sum_int_cons. lia.
  - congruence.
Qed.

Lemma total_weight_disj_union (A B : gset Z) (items : gmap Z (Z * Q)) :
  A ## B →
  total_weight (A ∪ B) items = total_weight A items + total_weight B items.
Proof.
  intros Hdisj. unfold total_weight.
  rewrite <- sum_int_app, <- fmap_app. apply sum_int_Permutation.
  by rewrite elements_disj_union.
Qed.

Lemma sum_int_nonneg (l : list Z) : Forall (λ x, 0 ≤ x) l → 0 ≤ sum_int l.
Proof.
  induction 1 as [|x l Hx _ IH]; [done|]. rewrite sum_int_cons. lia.
Qed.

Lemma total_weight_nonneg (A : gset Z) (items : gmap Z (Z * Q)) :
  map_Forall (λ _ wv, 0 ≤ wv.1) items → 0 ≤ total_weight A items.
Proof.
  intros Hw. apply sum_int_nonneg, Forall_fmap, Forall_forall.
  intros i _. cbn. unfold item_weight.
  destruct (items !! i) as [wv|] eqn:Hi; [|done]. by apply (Hw i wv).
Qed.

(** When [evalKnapsack] returns, every member is a key of the table. *)
Lemma evalKnapsack_Ok_keys (A : gset Z) (items : gmap Z (Z * Q)) f :
  evalKnapsack A items = Ok f → A ⊆ dom items.
Proof.
  intros Hf. destruct (decide (A ⊆ dom items)) as [|Hn]; [done|].
  rewrite evalKnapsack_missing in Hf by done. discriminate Hf.
Qed.

(** A returned fitness other than the penalty is the pair of sums, of an
    individual of at most 50 members and weight at most 50. *)
Lemma evalKnapsack_feasible (A : gset Z) (items : gmap Z (Z * Q)) f :
  evalKnapsack A items = Ok f → f ≠ penalty →
  f = (total_weight A items, total_value A items) ∧
  len A ≤ 50 ∧ total_weight A items ≤ 50.
Proof.
  intros Hf Hne. pose proof (evalKnapsack_Ok_keys A items f Hf) as Hk.
  rewrite evalKnapsack_keys in Hf by done. unfold MAX_ITEM, MAX_WEIGHT in Hf.
  destruct (Z.ltb_spec 50 (len A)); [cbn in Hf; congruence|].
  destruct (Z.ltb_spec 50 (total_weight A items)); [cbn in Hf; congruence|].
  cbn in Hf. injection Hf as <-. done.
Qed.

(** ** More on the fitness evaluator *)

(** X1: whatever its size and weight, an individual holding an index that
    is not a key of the item table makes [evalKnapsack] raise KeyError:
    the sums are computed before the penalty test. *)
Theorem evalKnapsack_missing_key (A : gset Z) (items : gmap Z (Z * Q)) (i : Z) :
  i ∈ A → items !! i = None → evalKnapsack A items = Raise KeyError.
Proof.
  intros Hi Hnone. apply evalKnapsack_missing. intros Hsub.
  apply Hsub, elem_of_dom in Hi as [wv Hwv]. congruence.
Qed.

Lemma evalKnapsack_missing_key_witness :
  evalKnapsack {[0; 7]} {[0 := (3, 5%Q)]} = Raise KeyError.
Proof.
  apply (evalKnapsack_missing_key {[0; 7]} {[0 := (3, 5%Q)]} 7).
  - apply (bool_decide_unpack _). vm_compute. exact I.
  - vm_compute. reflexivity.
Defined.

(** X2: weight is additive. When two individuals have no member in
    common and neither they nor their union are penalised, the weight of
    the union is the sum of their weights. *)
Theorem evalKnapsack_additive (A B : gset Z) (items : gmap Z (Z * Q))
    (fA fB f : Z * Q) :
  A ## B →
  evalKnapsack A items = Ok fA → fA ≠ penalty →
  evalKnapsack B items = Ok fB → fB ≠ penalty →
  evalKnapsack (A ∪ B) items = Ok f → f ≠ penalty →
  f.1 = fA.1 + fB.1.
Proof.
  intros Hdisj HA HnA HB HnB HAB HnAB.
  destruct (evalKnapsack_feasible A items fA HA HnA) as (-> & _).
  destruct (evalKnapsack_feasible B items fB HB HnB) as (-> & _).
  destruct (evalKnapsack_feasible _ items f HAB HnAB) as (-> & _).
  cbn [fst snd]. by apply total_weight_disj_union.
Qed.

Lemma evalKnapsack_additive_witness :
  ∃ fA fB f,
    evalKnapsack {[0]} {[0 := (3, 5%Q); 2 := (4, 1 # 2)]} = Ok fA ∧
    evalKnapsack {[2]} {[0 := (3, 5%Q); 2 := (4, 1 # 2)]} = Ok fB ∧
    evalKnapsack ({[0]} ∪ {[2]}) {[0 := (3, 5%Q); 2 := (4, 1 # 2)]} = Ok f ∧
    f.1 = fA.1 + fB.1.
Proof.
  exists (3, (0 + 5)%Q), (4, (0 + (1 # 2))%Q), (7, (0 + 5 + (1 # 2))%Q).
  split; [vm_compute; reflexivity|].
  split; [vm_compute; reflexivity|].
  split; [vm_compute; reflexivity|].
  apply (evalKnapsack_additive {[0]} {[2]} {[0 := (3, 5%Q); 2 := (4, 1 # 2)]}).
  - apply (bool_decide_unpack _). vm_compute. exact I.
  - vm_compute. reflexivity.
  - intros [=].
  - vm_compute. reflexivity.
  - intros [=].
  - vm_compute. reflexivity.
  - intros [=].
Defined.

(** X3: feasibility is inherited by subsets. For an item table without
    negative weights, when an individual is not penalised no subset of it
    is, and the subset weighs no more. *)
Theorem evalKnapsack_subset (A B : gset Z) (items : gmap Z (Z * Q))
    (fB : Z * Q) :
  map_Forall (λ _ wv, 0 ≤ wv.1) items →
  A ⊆ B →
  evalKnapsack B items = Ok fB → fB ≠ penalty →
  ∃ fA, evalKnapsack A items = Ok fA ∧ fA ≠ penalty ∧
        fA = (total_weight A items, total_value A items) ∧
        fA.1 ≤ fB.1.
Proof.
  intros Hw Hsub HB HnB.
  pose proof (evalKnapsack_Ok_keys B items fB HB) as Hk.
  destruct (evalKnapsack_feasible B items fB HB HnB) as (-> & Hlen & Hwt).
  assert (B = A ∪ B ∖ A) as HBA by (by apply union_difference_L).
  assert (total_weight B items
          = total_weight A items + total_weight (B ∖ A) items) as Hsum.
  { rewrite HBA at 1. apply total_weight_disj_union. set_solver. }
  pose proof (total_weight_nonneg (B ∖ A) items Hw) as Hrest.
  assert (len A ≤ len B) as HlenA.
  { unfold len. apply subseteq_size in Hsub. lia. }
  exists (total_weight A items, total_value A items).
  rewrite evalKnapsack_keys by set_solver. unfold MAX_ITEM, MAX_WEIGHT, penalty.
  destruct (Z.ltb_spec 50 (len A)); [lia|].
  destruct (Z.ltb_spec 50 (total_weight A items)); [lia|].
  cbn [orb fst]. split; [done|]. split; [|split; [done|lia]].
  intros [= Hp _]. lia.
Qed.

Lemma evalKnapsack_subset_witness :
  ∃ fA, evalKnapsack {[0]} {[0 := (3, 5%Q); 2 := (4, 1 # 2)]} = Ok fA ∧
        fA ≠ penalty ∧
        fA = (total_weight {[0]} {[0 := (3, 5%Q); 2 := (4, 1 # 2)]},
              total_value {[0]} {[0 := (3, 5%Q); 2 := (4, 1 # 2)]}) ∧
        fA.1 ≤ 7.
Proof.
  apply (evalKnapsack_subset {[0]} {[0; 2]} {[0 := (3, 5%Q); 2 := (4, 1 # 2)]}
           (7, (0 + 5 + (1 # 2))%Q)).
  - apply (bool_decide_unpack _). vm_compute. exact I.
  - apply (bool_decide_unpack _). vm_compute. exact I.
  - vm_compute. reflexivity.
  - intros [=].
Defined.

(** ** Item generation and the initial individuals *)

Section StoreFree.
Context {G : Type} `{!PyRandom G}.

Lemma store_free_ret {A} (a : A) : store_free (mret a : Py G A).
Proof. by intros h g. Qed.

Lemma store_free_bind {A B} (m : Py G A) (f : A → Py G B) :
  store_free m → (∀ a, store_free (f a)) → store_free (m ≫= f).
Proof.
  intros Hm Hf h g. unfold mbind, Py_bind. rewrite (Hm h g).
  destruct (m (World [] g)) as [[a [h' g']]|e]; [|done]. cbn [rng].
  rewrite (Hf a h g'), (Hf a h' g').
  by destruct (f a (World [] g')) as [[b [h'' g'']]|e].
Qed.

Lemma store_free_mapM {A B} (f : A → Py G B) (l : list A) :
  (∀ x, store_free (f x)) → store_free (mapM f l).
Proof.
  intros Hf. induction l as [|x l IH]; cbn [mapM]; [apply store_free_ret|].
  apply store_free_bind; [done|]. intros y.
  apply store_free_bind; [done|]. intros ys. apply store_free_ret.
Qed.

Lemma store_free_random : store_free (random_random : Py G Q).
Proof. intros h g. unfold random_random. cbn. by destruct (next_random g). Qed.

Lemma store_free_randrange n : store_free (randrange n : Py G Z).
Proof.
  intros h g. unfold randrange. cbn. destruct (n <=? 0); [done|].
  by destruct (randbelow n g).
Qed.

Lemma store_free_create_items seed : store_free (create_items seed).
Proof.
  unfold create_items. apply store_free_bind; [by intros h g|]. intros _.
  apply store_free_bind; [|intros kvs; apply store_free_ret].
  apply store_free_mapM. intros i. unfold randint, uniform.
  apply store_free_bind.
  { apply store_free_bind; [apply store_free_randrange|].
    intros k. apply store_free_ret. }
  intros wt. apply store_free_bind.
  { apply store_free_bind; [apply store_free_random|].
    intros u. apply store_free_ret. }
  intros v. apply store_free_ret.
Qed.

Lemma create_items_reseeds seed (h : list (gset Z)) (g g' : G) :
  create_items seed (World h g) = create_items seed (World h g').
Proof. reflexivity. Qed.
End StoreFree.

(** X4: [create_items(seed)] never raises and returns a table that
    depends on the seed alone, whatever the generator did before: its keys
    are exactly 0..19, its weights lie in [1, 10] and its values in
    [0, 100). It leaves the generator in a state fixed by the seed and
    does not touch any individual. *)
Theorem create_items_table {G} `{!PyRandom G} (seed : Z) :
  ∃ (items : gmap Z (Z * Q)) (g : G),
    (∀ w, create_items seed w = Ok (items, World (heap w) g)) ∧
    dom items = list_to_set (seqZ 0 20) ∧
    ∀ i wt v, items !! i = Some (wt, v) →
      0 ≤ i < 20 ∧ 1 ≤ wt ≤ 10 ∧ (0 <= v)%Q ∧ (v < 100)%Q.
Proof.
  destruct (create_items_ok seed (World [] (seed_state seed)))
    as (items & w' & Hc & [Hdom Hb] & _).
  exists items, (rng w'). split; [|split; [exact Hdom|]].
  - intros [h g]. rewrite store_free_create_items.
    rewrite (create_items_reseeds seed [] g (seed_state seed)), Hc. done.
  - intros i wt v Hi. split; [|by eapply Hb].
    assert (i ∈ dom items) as Hin by (apply elem_of_dom; by eexists).
    rewrite Hdom in Hin. apply elem_of_list_to_set, elem_of_seqZ in Hin.
    unfold NBR_ITEMS in Hin. lia.
Qed.

Lemma size_list_to_set_le (xs : list Z) :
  (size (list_to_set xs : gset Z) ≤ length xs)%nat.
Proof.
  induction xs as [|x xs IH]; cbn [length].
  - by rewrite list_to_set_nil, size_empty.
  - rewrite list_to_set_cons, size_union_alt, size_singleton.
    assert (size (list_to_set xs ∖ {[x]} : gset Z)
            ≤ size (list_to_set xs : gset Z))%nat
      by (apply subseteq_size; set_solver).
    lia.
Qed.

Lemma size_list_to_set_pos (x : Z) (xs : list Z) :
  (1 ≤ size (list_to_set (x :: xs) : gset Z))%nat.
Proof.
  assert (size (list_to_set (x :: xs) : gset Z) ≠ 0%nat); [|lia].
  rewrite size_zero_iff. intros Hnil.
  assert (x ∈ (list_to_set (x :: xs) : gset Z)) as Hx by set_solver.
  rewrite Hnil in Hx. exact (not_elem_of_empty (C:=gset Z) x Hx).
Qed.

Section Initial.
Context {G : Type} `{!PyRandom G}.
Implicit Types w : world G.

Lemma individual_new w :
  returns individual w (λ r w',
    r = length (heap w) ∧
    ∃ s, heap w' = heap w ++ [s] ∧ initial s).
Proof.
  unfold individual. apply returns_bind. eapply returns_mono.
  { apply (returns_mapM _ (λ v, heap v = heap w)
             (λ _ x, 0 ≤ x < NBR_ITEMS)); [done|].
    intros _ v _ Hv. apply returns_randrange; [done|]. split; [|done].
    by apply randbelow_range. }
  cbn beta. intros xs v [Hxs Hv]. apply returns_alloc. cbn [heap].
  rewrite Hv. split; [done|].
  exists (list_to_set xs). split; [done|].
  pose proof (Forall2_length _ _ _ Hxs) as Hlen. rewrite length_seq in Hlen.
  unfold IND_INIT_SIZE in Hlen. split.
  - apply in_range_list_to_set. clear -Hxs.
    induction Hxs; constructor; auto.
  - unfold len. pose proof (size_list_to_set_le xs).
    destruct xs as [|x xs]; [discriminate Hlen|].
    pose proof (size_list_to_set_pos x xs). lia.
Qed.

Lemma mapM_individual_new {A} (l : list A) w :
  returns (mapM (λ _, individual) l) w (λ rs w',
    rs = seq (length (heap w)) (length l) ∧
    ∃ new, heap w' = heap w ++ new ∧ length new = length l ∧
           Forall initial new).
Proof.
  revert w. induction l as [|x l IH]; intros w.
  { apply returns_ret. split; [done|]. exists []. by rewrite app_nil_r. }
  cbn [mapM]. apply returns_bind.
  eapply returns_mono; [apply individual_new|].
  intros r w1 (-> & s & Hw1 & Hs). apply returns_bind.
  eapply returns_mono; [apply IH|].
  intros rs w2 (-> & new & Hw2 & Hlen & Hnew). apply returns_ret.
  rewrite Hw1, length_app in *. cbn [length] in *. split.
  - cbn [seq].
    by replace (length (heap w) + 1)%nat with (S (length (heap w))) by lia.
  - exists (s :: new). rewrite Hw2, <- app_assoc. cbn.
    split; [done|]. split; [by rewrite Hlen|by constructor].
Qed.
End Initial.

(** X5: [toolbox.individual()] never raises and creates one new object,
    after the existing ones, which it leaves as they are; the new
    individual holds between 1 and 5 item indices of [0, 20). *)
Theorem individual_fresh {G} `{!PyRandom G} (w : world G) :
  returns individual w (λ r w',
    r = length (heap w) ∧
    ∃ s, heap w' = heap w ++ [s] ∧
         in_range s ∧ 1 ≤ len s ≤ Z.of_nat IND_INIT_SIZE).
Proof.
  eapply returns_mono; [apply individual_new|].
  intros r w' (-> & s & Hw' & Hin & Hlen). split; [done|].
  exists s. unfold IND_INIT_SIZE. split; [done|]. split; [done|lia].
Qed.

(** X6: [toolbox.population(n)] never raises and returns [n] different
    objects, created one after the other behind the existing ones, which
    it leaves as they are; each holds between 1 and 5 item indices of
    [0, 20). *)
Theorem population_fresh {G} `{!PyRandom G} (n : nat) (w : world G) :
  returns (population n) w (λ rs w',
    rs = seq (length (heap w)) n ∧
    NoDup rs ∧
    ∃ new, heap w' = heap w ++ new ∧ length new = n ∧
           Forall (λ s, in_range s ∧ 1 ≤ len s ≤ Z.of_nat IND_INIT_SIZE) new).
Proof.
  unfold population. eapply returns_mono; [apply mapM_individual_new|].
  cbn beta. intros rs w' (-> & new & Hw' & Hlen & Hnew).
  rewrite length_seq in *. split; [done|]. split; [apply NoDup_seq|].
  exists new. split; [done|]. split; [done|].
  eapply Forall_impl; [exact Hnew|]. intros s [Hin Hl].
  unfold IND_INIT_SIZE. split; [done|lia].
Qed.

Lemma sum_int_bounds (l : list Z) :
  Forall (λ x, 1 ≤ x ≤ 10) l →
  Z.of_nat (length l) ≤ sum_int l ≤ 10 * Z.of_nat (length l).
Proof.
  induction 1 as [|x l Hx _ IH]; [done|].
  rewrite sum_int_cons. cbn [length]. lia.
Qed.

(** Under a table as [create_items] builds it, an individual of at most
    five item indices is never penalised. *)
Lemma initial_feasible (items : gmap Z (Z * Q)) (s : gset Z) :
  table_ok items → initial s →
  evalKnapsack s items = Ok (total_weight s items, total_value s items) ∧
  len s ≤ total_weight s items ≤ 10 * len s ∧
  (0 <= total_value s items)%Q.
Proof.
  intros Ht [Hin Hlen].
  assert (len s ≤ total_weight s items ≤ 10 * len s) as Hw.
  { unfold total_weight, len.
    replace (size s) with (length (item_weight items <$> elements s))
      by (by rewrite length_fmap).
    apply sum_int_bounds, Forall_fmap, Forall_forall.
    intros i Hi%elem_of_elements. cbn. unfold item_weight.
    destruct Ht as [Hdom Hb].
    assert (i ∈ dom items) as [[wt v] Hwv]%elem_of_dom.
    { rewrite Hdom. apply (proj1 (in_range_universe s) Hin i Hi). }
    rewrite Hwv. by destruct (Hb i wt v Hwv) as (? & _). }
  split; [|split; [done|by apply total_value_nonneg]].
  rewrite evalKnapsack_in_range by done. unfold MAX_WEIGHT.
  destruct (Z.ltb_spec 50 (total_weight s items)); [lia|done].
Qed.

(** X7: the individuals of a new population are never penalised. After
    [create_items(seed)] and [toolbox.population(n)], evaluating each
    individual returns its true sums, with a weight between its number
    of members and 50 and a non-negative value; nothing raises. *)
Theorem population_feasible {G} `{!PyRandom G} (seed : Z) (n : nat)
    (w : world G) :
  returns (items ← create_items seed;
           pop ← population n;
           fits ← mapM (evaluate items) pop;
           mret (items, pop, fits)) w
    (λ r w',
       length r.1.2 = n ∧
       Forall2 (λ ind fit,
                  ∃ s, heap w' !! ind = Some s ∧
                       fit = (total_weight s r.1.1, total_value s r.1.1) ∧
                       fit ≠ (10000, 0%Q) ∧
                       1 ≤ len s ≤ fit.1 ∧ fit.1 ≤ 50 ∧
                       (0 <= fit.2)%Q)
               r.1.2 r.2).
Proof.
  apply returns_bind. eapply returns_mono; [apply create_items_ok|].
  intros items w1 [Ht _]. apply returns_bind.
  eapply returns_mono; [apply mapM_individual_new|]. cbn beta.
  intros pop w2 (-> & new & Hw2 & Hlen & Hnew). rewrite length_seq in *.
  apply returns_bind. eapply returns_mono.
  { apply (returns_mapM _ (λ v, v = w2)
             (λ ind fit, ∃ s, heap w2 !! ind = Some s ∧
                fit = (total_weight s items, total_value s items) ∧
                fit ≠ (10000, 0%Q) ∧ 1 ≤ len s ≤ fit.1 ∧ fit.1 ≤ 50 ∧
                (0 <= fit.2)%Q)); [done|].
    intros ind v Hind ->. apply elem_of_seq in Hind.
    destruct (lookup_lt_is_Some_2 new (ind - length (heap w1))) as [s Hs];
      [lia|].
    assert (heap w2 !! ind = Some s) as Hlook.
    { rewrite Hw2, lookup_app_r by lia. exact Hs. }
    assert (initial s) as Hinit.
    { eapply Forall_lookup_1 in Hnew; [exact Hnew|exact Hs]. }
    destruct (initial_feasible items s Ht Hinit) as (Hev & Hwt & Hv).
    destruct Hinit as [_ Hl].
    unfold evaluate. apply returns_bind, (returns_deref _ s); [done|].
    eapply returns_lift; [exact Hev|]. split; [|done].
    exists s. split; [done|]. split; [done|]. cbn [fst snd].
    split; [intros [= Hp _]; lia|]. split; [lia|]. split; [lia|done]. }
  cbn beta. intros fits w3 [Hfits ->]. apply returns_ret. cbn [fst snd].
  split; [by rewrite length_seq|done].
Qed.

(** ** More on the variation operators *)

(** X8: [cxSet] called with one object as both arguments empties it,
    whatever it held, and changes no other object and no generator
    state. *)
Theorem cxSet_one_object {G} (w : world G) (ind : ref) (A : gset Z) :
  heap w !! ind = Some A →
  ∃ w', cxSet ind ind w = Ok ((ind, ind), w') ∧
    heap w' !! ind = Some ∅ ∧
    (∀ r, r ≠ ind → heap w' !! r = heap w !! r) ∧
    rng w' = rng w.
Proof.
  intros Hind. pose proof (lookup_lt_Some _ _ _ Hind) as Hlt.
  eexists. split; [by apply cxSet_aliased|]. cbn [heap rng].
  split; [|split; [|done]].
  - rewrite list_lookup_insert_eq by (by rewrite length_insert).
    f_equal. unfold sym_diff. set_solver.
  - intros r Hr. by rewrite !list_lookup_insert_ne.
Qed.

Lemma cxSet_one_object_witness :
  ∃ w', cxSet 0%nat 0%nat (World [{[1; 2]}; {[3]}] 7) = Ok ((0%nat, 0%nat), w') ∧
    heap w' !! 0%nat = Some ∅ ∧
    (∀ r, r ≠ 0%nat → heap w' !! r = heap (World [{[1; 2]}; {[3]}] 7) !! r) ∧
    rng w' = rng (World [{[1; 2]}; {[3]}] 7).
Proof.
  apply (cxSet_one_object (World [{[1; 2]}; {[3]}] 7) 0%nat {[1; 2]}).
  reflexivity.
Defined.

(** X9: crossover neither loses nor invents a member. On two different
    objects the two offspring have no member in common and together hold
    exactly the members of the two parents. *)
Theorem cxSet_partition {G} (w : world G) (ind1 ind2 : ref) (A B : gset Z) :
  ind1 ≠ ind2 →
  heap w !! ind1 = Some A →
  heap w !! ind2 = Some B →
  ∃ w' A' B', cxSet ind1 ind2 w = Ok ((ind1, ind2), w') ∧
    heap w' !! ind1 = Some A' ∧
    heap w' !! ind2 = Some B' ∧
    A' ## B' ∧
    A' ∪ B' = A ∪ B ∧
    len A' + len B' = len (A ∪ B).
Proof.
  intros Hne H1 H2.
  pose proof (lookup_lt_Some _ _ _ H1) as Hlt1.
  pose proof (lookup_lt_Some _ _ _ H2) as Hlt2.
  exists (World (<[ind2 := sym_diff B A]> (<[ind1 := A ∩ B]> (heap w))) (rng w)),
    (A ∩ B), (sym_diff B A).
  split; [by apply cxSet_distinct|]. cbn [heap].
  assert (A ∩ B ## sym_diff B A) as Hdisj by (unfold sym_diff; set_solver).
  assert ((A ∩ B) ∪ sym_diff B A = A ∪ B) as Hun.
  { unfold sym_diff. apply set_eq. intros x.
    rewrite !elem_of_union, !elem_of_difference, elem_of_intersection.
    destruct (decide (x ∈ A)), (decide (x ∈ B)); tauto. }
  split; [|split; [|split; [done|split; [done|]]]].
  - rewrite list_lookup_insert_ne by done. by rewrite list_lookup_insert_eq.
  - by rewrite list_lookup_insert_eq by (by rewrite length_insert).
  - unfold len. rewrite <- Hun.
    rewrite (size_union (A ∩ B) (sym_diff B A) Hdisj). lia.
Qed.

Lemma cxSet_partition_witness :
  ∃ w' A' B',
    cxSet 0%nat 1%nat (World [{[1; 2]}; {[2; 3; 4]}] 7)
      = Ok ((0%nat, 1%nat), w') ∧
    heap w' !! 0%nat = Some A' ∧
    heap w' !! 1%nat = Some B' ∧
    A' ## B' ∧
    A' ∪ B' = {[1; 2]} ∪ {[2; 3; 4]} ∧
    len A' + len B' = len ({[1; 2]} ∪ {[2; 3; 4]}).
Proof.
  apply (cxSet_partition (World [{[1; 2]}; {[2; 3; 4]}] 7) 0%nat 1%nat);
    [lia | reflexivity | reflexivity].
Defined.

(** X10: crossing the two offspring again gathers everything in the
    second: after two calls of [cxSet] on two different objects the first
    is empty and the second holds the union of the two parents. *)
Theorem cxSet_twice {G} (w : world G) (ind1 ind2 : ref) (A B : gset Z) :
  ind1 ≠ ind2 →
  heap w !! ind1 = Some A →
  heap w !! ind2 = Some B →
  ∃ w', (cs ← cxSet ind1 ind2; cxSet cs.1 cs.2) w = Ok ((ind1, ind2), w') ∧
    heap w' !! ind1 = Some ∅ ∧
    heap w' !! ind2 = Some (A ∪ B) ∧
    (∀ r, r ≠ ind1 → r ≠ ind2 → heap w' !! r = heap w !! r).
Proof.
  intros Hne H1 H2.
  pose proof (lookup_lt_Some _ _ _ H1) as Hlt1.
  pose proof (lookup_lt_Some _ _ _ H2) as Hlt2.
  set (w1 := World (<[ind2 := sym_diff B A]> (<[ind1 := A ∩ B]> (heap w)))
                   (rng w)).
  assert (heap w1 !! ind1 = Some (A ∩ B)) as H1'.
  { cbn. rewrite list_lookup_insert_ne by done.
    by rewrite list_lookup_insert_eq. }
  assert (heap w1 !! ind2 = Some (sym_diff B A)) as H2'.
  { cbn. by rewrite list_lookup_insert_eq by (by rewrite length_insert). }
  eexists. split.
  { unfold mbind, Py_bind. rewrite (cxSet_distinct w ind1 ind2 A B) by done.
    cbn [fst snd]. by apply (cxSet_distinct w1 ind1 ind2). }
  assert (length (heap w1) = length (heap w)) as Hlen1
    by (cbn; by rewrite !length_insert).
  cbn [heap]. split; [|split].
  - rewrite list_lookup_insert_ne by done.
    rewrite list_lookup_insert_eq by lia.
    f_equal. unfold sym_diff. set_solver.
  - rewrite list_lookup_insert_eq by (rewrite length_insert; lia).
    f_equal. unfold sym_diff. apply set_eq. intros x.
    rewrite !elem_of_union, !elem_of_difference, !elem_of_intersection,
      !elem_of_union, !elem_of_difference.
    destruct (decide (x ∈ A)), (decide (x ∈ B)); tauto.
  - intros r Hr1 Hr2. rewrite !list_lookup_insert_ne by done.
    unfold w1. cbn [heap]. by rewrite !list_lookup_insert_ne.
Qed.

Lemma cxSet_twice_witness :
  ∃ w', (cs ← cxSet 0%nat 1%nat; cxSet cs.1 cs.2)
          (World [{[1; 2]}; {[2; 3; 4]}] 7) = Ok ((0%nat, 1%nat), w') ∧
    heap w' !! 0%nat = Some ∅ ∧
    heap w' !! 1%nat = Some ({[1; 2]} ∪ {[2; 3; 4]}) ∧
    (∀ r, r ≠ 0%nat → r ≠ 1%nat →
          heap w' !! r = heap (World [{[1; 2]}; {[2; 3; 4]}] 7) !! r).
Proof.
  apply (cxSet_twice (World [{[1; 2]}; {[2; 3; 4]}] 7) 0%nat 1%nat);
    [lia | reflexivity | reflexivity].
Defined.

(** X11: [mutSet] never raises on an individual, returns it, and changes
    at most one member of it and nothing of any other object: it removes
    one member, or leaves the set as it is, or adds one index of
    [0, NBR_ITEMS) that was not a member. *)
Theorem mutSet_one_member {G} `{!PyRandom G} (w : world G) (ind : ref)
    (A : gset Z) :
  heap w !! ind = Some A →
  ∃ w' A', mutSet ind w = Ok (ind, w') ∧
    heap w' !! ind = Some A' ∧
    length (heap w') = length (heap w) ∧
    (∀ r, r ≠ ind → heap w' !! r = heap w !! r) ∧
    ((∃ x, x ∈ A ∧ A' = (A ∖ {[x]}) ∧ len A' = len A - 1) ∨
     A' = A ∨
     (∃ j, 0 ≤ j < NBR_ITEMS ∧ (j ∉ A) ∧ A' = A ∪ {[j]} ∧ len A' = len A + 1)).
Proof.
  intros Hind. pose proof (lookup_lt_Some _ _ _ Hind) as Hlt.
  destruct (Qlt_le_dec (next_random (rng w)).1 (1 # 2)) as [Hu|Hu].
  - destruct (decide (A = ∅)) as [->|Hne].
    + eexists _, ∅. split; [by apply mutSet_remove_empty|].
      cbn [heap]. split; [done|]. split; [done|]. split; [done|].
      right. by left.
    + destruct (mutSet_remove w ind A) as (x & _ & Hx & Hm); [done..|].
      eexists _, (A ∖ {[x]}). split; [exact Hm|]. cbn [heap].
      split; [by rewrite list_lookup_insert_eq|].
      split; [by rewrite length_insert|].
      split; [intros r Hr; by rewrite list_lookup_insert_ne|].
      left. exists x. split; [done|]. split; [done|].
      unfold len. rewrite size_difference by set_solver.
      rewrite size_singleton.
      assert (size A ≠ 0%nat) by (by rewrite size_zero_iff). lia.
  - apply Qle_not_lt in Hu.
    pose proof (randbelow_range NBR_ITEMS (next_random (rng w)).2 eq_refl) as Hj.
    set (j := (randbelow NBR_ITEMS (next_random (rng w)).2).1) in *.
    eexists _, (A ∪ {[j]}). split; [by apply mutSet_add|]. cbn [heap].
    split; [by rewrite list_lookup_insert_eq|].
    split; [by rewrite length_insert|].
    split; [intros r Hr; by rewrite list_lookup_insert_ne|].
    destruct (decide (j ∈ A)) as [Hin|Hnin].
    + right. left. set_solver.
    + right. right. exists j. split; [done|]. split; [done|]. split; [done|].
      unfold len. rewrite size_union by set_solver. rewrite size_singleton. lia.
Qed.

Lemma mutSet_one_member_witness :
  ∃ w' A', @mutSet Z lcg 0%nat (World [{[1; 2]}] 7) = Ok (0%nat, w') ∧
    heap w' !! 0%nat = Some A' ∧
    length (heap w') = length (heap (World [{[1; 2]}] 7)) ∧
    (∀ r, r ≠ 0%nat → heap w' !! r = heap (World [{[1; 2]}] 7) !! r) ∧
    ((∃ x, x ∈ ({[1; 2]} : gset Z) ∧ A' = ({[1; 2]} ∖ {[x]}) ∧
           len A' = len {[1; 2]} - 1) ∨
     A' = {[1; 2]} ∨
     (∃ j, 0 ≤ j < NBR_ITEMS ∧ (j ∉ ({[1; 2]} : gset Z)) ∧
           A' = {[1; 2]} ∪ {[j]} ∧ len A' = len {[1; 2]} + 1)).
Proof.
  apply (@mutSet_one_member Z lcg (World [{[1; 2]}] 7) 0%nat {[1; 2]}).
  reflexivity.
Defined.

(** ** More on the Run Result and the sweep *)

(** X12: the derivation of the Run Result from any list of records. On
    an empty list [max] raises ValueError. On a non-empty list
    [earliest_generation] is never None: it is the generation of the
    first record whose maximum value equals the overall maximum, no
    record exceeds that maximum and every record before that one is
    strictly below it. *)
Theorem run_result_first_max (records : list record) :
  match records with
  | [] => run_result records = Raise ValueError
  | _ :: _ =>
      ∃ i entry v,
        run_result records = Ok (Some (gen entry), v) ∧
        records !! i = Some entry ∧
        Qeq_bool (max entry).2 v = true ∧
        Forall (λ r, ((max r).2 <= v)%Q) records ∧
        ∀ j r, (j < i)%nat → records !! j = Some r → ((max r).2 < v)%Q
  end.
Proof.
  destruct records as [|r0 records0]; [reflexivity|].
  set (records := r0 :: records0).
  destruct (py_max_spec ((λ r, (max r).2) <$> records)) as (v & Hv & Hin & Hall);
    [discriminate|].
  assert (Forall (λ r, ((max r).2 <= v)%Q) records) as Hall'.
  { apply Forall_forall. intros r Hr.
    eapply (proj1 (Forall_forall _ _) Hall), list_elem_of_fmap. eauto. }
  apply list_elem_of_fmap in Hin as (r1 & Hr1 & Hr1in).
  destruct (find_is_Some (λ entry, Qeq_bool (max entry).2 v) records r1)
    as [entry Hfind]; [exact Hr1in|by rewrite <- Hr1; apply Qeq_bool_refl|].
  pose proof (find_first _ _ _ Hfind) as (i & Hi & Hp & Hfirst).
  exists i, entry, v. split.
  { unfold run_result. fold records. rewrite Hv. cbn [mbind outcome_bind].
    by rewrite Hfind. }
  split; [exact Hi|]. split; [exact Hp|]. split; [exact Hall'|].
  intros j r Hj Hr. pose proof (Hfirst j r Hj Hr) as Hneq.
  apply Qeq_bool_neq in Hneq.
  assert ((max r).2 <= v)%Q as Hle.
  { eapply (proj1 (Forall_forall _ _) Hall'), list_elem_of_lookup_2, Hr. }
  apply Qle_lteq in Hle as [Hlt|Heq]; [exact Hlt|]. by destruct Hneq.
Qed.

Lemma grid_elem_of (k : Z * Q * Q) :
  k ∈ grid →
  ∃ seed i, 1 ≤ seed ≤ 29 ∧ 0 ≤ i ≤ 10 ∧ k = (seed, Qmake i 10, Qmake (10 - i) 10).
Proof.
  unfold grid. intros Hk. apply list_elem_of_In, in_concat in Hk as (l & Hl & Hk).
  apply list_elem_of_In in Hl, Hk.
  apply list_elem_of_fmap in Hl as (seed & -> & Hseed%elem_of_seqZ).
  unfold grid_seed in Hk.
  apply list_elem_of_fmap in Hk as (i & -> & Hi%elem_of_seqZ).
  exists seed, i. split; [lia|]. split; [lia|done].
Qed.

Section SweepRows.
Context {G : Type} `{!PyRandom G} `{!Selector}.

(** A row of the sweep holds a generation of 0..100. *)
Lemma run_ea_row_gen (r : row) :
  (∀ v : world G, ∃ v', run_ea (row_cxpb r) (row_mutpb r) (row_seed r) v
                        = Ok ((row_earliest_gen r, row_max_val r), v')) →
  ∃ e, row_earliest_gen r = Some e ∧ (e ≤ 100)%nat.
Proof.
  intros Hr.
  destruct (run_ea_returns (row_cxpb r) (row_mutpb r) (row_seed r))
    as (pop & logbook & w1 & e & v & entry & Hev & Hrun & _ & _ & _ & _ & He & _).
  destruct (Hr (World [] (seed_state 0))) as [v' Hv'].
  rewrite Hrun in Hv'. injection Hv' as Hg _ _. exists e. split; [done|].
  exact He.
Qed.
End SweepRows.

(** X13: the rows of the sweep. [main]'s two loops never raise and leave
    every individual as it was; each row has a seed of 1..29, a [cxpb] of
    [0, 1] whose sum with [mutpb] is exactly 1, and a generation that is
    an integer of 0..100, never None. *)
Theorem sweep_rows {G} `{!PyRandom G} `{!Selector} (w : world G) :
  ∃ rows w', sweep w = Ok (rows, w') ∧
    heap w' = heap w ∧
    Forall (λ r,
              1 ≤ row_seed r ≤ 29 ∧
              (0 <= row_cxpb r)%Q ∧ (row_cxpb r <= 1)%Q ∧
              (row_cxpb r + row_mutpb r == 1)%Q ∧
              ∃ e, row_earliest_gen r = Some e ∧ (e ≤ 100)%nat) rows.
Proof.
  destruct (sweep_ok w) as (rows & w' & Hs & Hh & Hk & Hr).
  exists rows, w'. split; [exact Hs|]. split; [exact Hh|].
  apply Forall_forall. intros r Hin.
  assert (row_key r ∈ grid) as Hg.
  { rewrite <- Hk. apply list_elem_of_fmap. by exists r. }
  apply grid_elem_of in Hg as (seed & i & Hseed & Hi & Hkey).
  unfold row_key in Hkey. injection Hkey as -> -> ->.
  split; [exact Hseed|].
  split; [unfold Qle; cbn; lia|]. split; [unfold Qle; cbn; lia|].
  split; [unfold Qeq, Qplus; cbn; lia|].
  apply run_ea_row_gen. eapply (proj1 (Forall_forall _ _) Hr), Hin.
Qed.

(** ** More on the aggregation *)

Lemma length_concat_sum {A} (ls : list (list A)) :
  length (concat ls) = sum_list (length <$> ls).
Proof.
  induction ls as [|l ls IH]; [done|]. cbn. rewrite length_app, IH. done.
Qed.

Lemma dict_append_runs key x (d : list (combo * list (option nat * Q))) :
  concat (dict_append key x d).*2 ≡ₚ concat d.*2 ++ [x].
Proof.
  induction d as [|[k xs] d IH]; cbn; [done|].
  destruct (combo_eqb k key); cbn.
  - rewrite <- !app_assoc. apply Permutation_app_head, Permutation_app_comm.
  - rewrite IH. by rewrite app_assoc.
Qed.

(** X14: the grouping of lines 161-164 neither drops nor repeats a run:
    the runs of all the groups together are the runs of the rows, each
    as often as it occurs. *)
Theorem group_rows_conserves (results : list row) :
  concat (group_rows results).*2 ≡ₚ row_run <$> results ∧
  sum_list (length <$> (group_rows results).*2) = length results.
Proof.
  assert (concat (group_rows results).*2 ≡ₚ row_run <$> results) as Hperm.
  { induction results as [|r results IH] using rev_ind; [done|].
    rewrite group_rows_snoc, dict_append_runs, IH, fmap_app. done. }
  split; [exact Hperm|].
  rewrite <- length_concat_sum, Hperm. apply length_fmap.
Qed.

Section AggregationFails.
Context {F : Type} `{!NumPy F}.



(** With at least one row and no generation missing, the aggregation
    returns one of the groups. *)
Lemma aggregate_returns (results : list row) :
  results ≠ [] →
  Forall (λ r, is_Some (row_earliest_gen r)) results →
  ∃ b, aggregate results = Ok b ∧ b ∈ summaries results.
Proof.
  intros Hne Hsome.
  pose proof (group_rows_gens results Hsome) as Hgens.
  pose proof (group_rows_nonempty results Hne) as Hd.
  unfold aggregate, summaries. rewrite best_scan_foldl by done.
  cbn [mbind outcome_bind].
  destruct (group_rows results) as [|e d]; [done|].
  cbn [fmap list_fmap foldl pick].
  destruct (foldl_pick_elem (summarize <$> d) (summarize e)) as (b & Hb & Hin).
  exists b. by rewrite Hb.
Qed.
End AggregationFails.


Lemma dict_shape_append key x (d : list (combo * list (option nat * Q))) :
  dict_shape (dict_append key x d) = dict_count key (dict_shape d).
Proof.
  induction d as [|[k xs] d IH]; [done|]. cbn.
  destruct (combo_eqb k key); cbn.
  - rewrite length_app. cbn. f_equal. f_equal. lia.
  - f_equal. exact IH.
Qed.

Lemma group_rows_shape (results : list row) :
  dict_shape (group_rows results)
  = foldl (λ d k, dict_count k d) [] (row_combo <$> results).
Proof.
  induction results as [|r results IH] using rev_ind; [done|].
  rewrite group_rows_snoc, dict_shape_append, IH, fmap_app, foldl_app. done.
Qed.

Lemma grid_shape :
  foldl (λ d k, dict_count k d) [] ((λ k : Z * Q * Q, (k.1.2, k.2)) <$> grid)
  = (λ k, (k, 29%nat)) <$> grid_pairs.
Proof. vm_compute. reflexivity. Qed.

(** X16: [main] as a whole. It never raises; the 319 rows of its sweep
    fall into exactly 11 groups of 29 runs each, one for each pair
    [(i/10, (10-i)/10)] in the order of [i], and the pair it returns is
    one of these eleven. *)
Theorem main_returns {G} `{!PyRandom G} `{!Selector} {F} `{!NumPy F}
    (w : world G) :
  ∃ rows w' c,
    sweep w = Ok (rows, w') ∧
    dict_shape (group_rows rows) = (λ k, (k, 29%nat)) <$> grid_pairs ∧
    main w = Ok (c, w') ∧
    c ∈ grid_pairs ∧
    heap w' = heap w.
Proof.
  destruct (sweep_ok w) as (rows & w' & Hs & Hh & Hk & Hr).
  assert (dict_shape (group_rows rows) = (λ k, (k, 29%nat)) <$> grid_pairs)
    as Hshape.
  { rewrite group_rows_shape, <- grid_shape, <- Hk, <- list_fmap_compose. done. }
  destruct (aggregate_returns rows) as (b & Hb & Hin).
  { intros ->. discriminate Hk. }
  { apply Forall_forall. intros r Hin.
    destruct (run_ea_row_gen r) as (e & He & _); [|by eexists].
    eapply (proj1 (Forall_forall _ _) Hr), Hin. }
  exists rows, w', b.1.1. split; [exact Hs|]. split; [exact Hshape|].
  split; [|split; [|exact Hh]].
  - unfold main, mbind, Py_bind. rewrite Hs. unfold lift. by rewrite Hb.
  - unfold summaries in Hin. apply list_elem_of_fmap in Hin as (e & -> & He).
    cbn [summarize fst].
    assert (e.1 ∈ (dict_shape (group_rows rows)).*1) as Hkey.
    { unfold dict_shape. rewrite <- list_fmap_compose.
      apply list_elem_of_fmap. by exists e. }
    rewrite Hshape, <- list_fmap_compose in Hkey.
    by rewrite list_fmap_id in Hkey.
Qed.

(** ** The performance score of the analysis scripts *)

(** What [max_values_per_seed] holds for a seed: nothing when no row has
    the seed, else the [max_value] of one of its rows that none of its
    rows exceeds. *)
Lemma max_values_per_seed_spec (df : list row) (seed : Z) :
  match max_values_per_seed df !! seed with
  | None => Forall (λ r, row_seed r ≠ seed) df
  | Some v =>
      (∃ r, r ∈ df ∧ row_seed r = seed ∧ row_max_val r = v) ∧
      Forall (λ r, row_seed r = seed → (row_max_val r <= v)%Q) df
  end.
Proof.
  induction df as [|r df IH] using rev_ind.
  { unfold max_values_per_seed. cbn. rewrite lookup_empty. constructor. }
  unfold max_values_per_seed in *. rewrite foldl_snoc.
  set (m := foldl _ ∅ df) in *.
  destruct (decide (row_seed r = seed)) as [<-|Hne].
  - destruct (m !! row_seed r) as [v|] eqn:Hm.
    + rewrite lookup_insert_eq. destruct IH as [(r' & Hr' & Hs & Hv) Hall].
      destruct (qmax_cases v (row_max_val r)) as [[-> Hle]|[-> Hlt]].
      * split; [exists r'; split; [set_solver|done]|].
        apply Forall_app. split; [done|]. by apply Forall_singleton.
      * split; [exists r; split; [set_solver|done]|].
        apply Forall_app. split; [|apply Forall_singleton; intros _; apply Qle_refl].
        eapply Forall_impl; [exact Hall|]. intros r'' Hr'' Hs''.
        specialize (Hr'' Hs''). cbn beta in *. lra.
    + rewrite lookup_insert_eq. split; [exists r; split; [set_solver|done]|].
      apply Forall_app. split; [|apply Forall_singleton; intros _; apply Qle_refl].
      eapply Forall_impl; [exact IH|]. intros r' Hr' Hs'. by destruct Hr'.
  - assert (∀ x, (<[row_seed r := x]> m) !! seed = m !! seed) as Hsame
      by (intros x; by rewrite lookup_insert_ne).
    destruct (m !! row_seed r) as [v0|]; rewrite Hsame;
      (destruct (m !! seed) as [v|];
       [destruct IH as [(r' & Hr' & Hs & Hv) Hall];
        split; [exists r'; split; [set_solver|done]|];
        apply Forall_app; split; [done|]; by apply Forall_singleton
       |apply Forall_app; split; [done|]; by apply Forall_singleton]).
Qed.

(** A traversal whose function succeeds on every element succeeds, and
    relates the elements to the results one by one. *)
Lemma mapM_outcome_Forall2 {A B} (f : A → outcome B) (P : A → B → Prop)
    (l : list A) :
  (∀ x, x ∈ l → ∃ y, f x = Ok y ∧ P x y) →
  ∃ ys, mapM f l = Ok ys ∧ Forall2 P l ys.
Proof.
  induction l as [|x l IH]; intros Hall; [by exists []|].
  destruct (Hall x) as (y & Hy & HP); [left|].
  destruct IH as (ys & Hys & HF); [intros x' Hx'; apply Hall; by right|].
  exists (y :: ys). cbn [mapM]. rewrite Hy. cbn [mbind outcome_bind].
  rewrite Hys. split; [done|]. by constructor.
Qed.

Lemma performance_rows (df : list row) :
  df ≠ [] →
  performance df = mapM (calculate_performance (max_values_per_seed df)) df.
Proof. by destruct df. Qed.

(** X17: the performance column of the analysis scripts. On a table
    with no row the assignment raises ValueError. On any other table
    computing the column never raises: every row's seed is a key of
    [max_values_per_seed]. A row keeps its own generation exactly when no
    row of its seed has a larger [max_value], and is scored 100 when some
    row of its seed has a strictly larger one; so for every seed at least
    one row keeps its generation. *)
Theorem performance_spec (df : list row) :
  match df with
  | [] => performance df = Raise ValueError
  | _ :: _ =>
      ∃ ps, performance df = Ok ps ∧
        Forall2 (λ r p,
                   (p = row_earliest_gen r ∧
                    Forall (λ r', row_seed r' = row_seed r →
                                  (row_max_val r' <= row_max_val r)%Q) df) ∨
                   (p = Some 100%nat ∧
                    ∃ r', r' ∈ df ∧ row_seed r' = row_seed r ∧
                          (row_max_val r < row_max_val r')%Q)) df ps ∧
        ∀ r, r ∈ df →
          ∃ i r', df !! i = Some r' ∧ row_seed r' = row_seed r ∧
                  ps !! i = Some (row_earliest_gen r')
  end.
Proof.
  destruct df as [|r0 df0]; [done|].
  assert (r0 :: df0 ≠ []) as Hne by done.
  revert Hne. generalize (r0 :: df0) as df. clear r0 df0. intros df Hne.
  set (P := λ (r : row) (p : option nat),
    (p = row_earliest_gen r ∧
     Forall (λ r', row_seed r' = row_seed r →
                   (row_max_val r' <= row_max_val r)%Q) df) ∨
    (p = Some 100%nat ∧
     ∃ r', r' ∈ df ∧ row_seed r' = row_seed r ∧
           (row_max_val r < row_max_val r')%Q)).
  assert (∀ r, r ∈ df →
            ∃ p, calculate_performance (max_values_per_seed df) r = Ok p ∧ P r p)
    as Hrow.
  { intros r Hr. unfold calculate_performance.
    pose proof (max_values_per_seed_spec df (row_seed r)) as Hspec.
    destruct (max_values_per_seed df !! row_seed r) as [v|].
    - destruct Hspec as [(r' & Hr' & Hs & Hv) Hall].
      destruct (Qltb (row_max_val r) v) eqn:Hlt.
      + eexists. split; [done|]. right. split; [done|].
        exists r'. apply Qltb_lt in Hlt. by rewrite Hv.
      + eexists. split; [done|]. left. split; [done|].
        apply Qltb_ge, Qnot_lt_le in Hlt.
        eapply Forall_impl; [exact Hall|]. intros r'' Hr'' Hs''.
        specialize (Hr'' Hs''). cbn beta in *. lra.
    - exfalso. eapply Forall_forall in Hspec; [|exact Hr]. by apply Hspec. }
  assert (∃ ps, performance df = Ok ps ∧ Forall2 P df ps) as (ps & Hps & HF).
  { rewrite performance_rows by done. apply mapM_outcome_Forall2. exact Hrow. }
  exists ps. split; [exact Hps|]. split; [exact HF|].
  intros r Hr.
  pose proof (max_values_per_seed_spec df (row_seed r)) as Hspec.
  destruct (max_values_per_seed df !! row_seed r) as [v|]; cycle 1.
  { exfalso. eapply Forall_forall in Hspec; [|exact Hr]. by apply Hspec. }
  destruct Hspec as [(r' & Hr' & Hs & Hv) Hall].
  apply list_elem_of_lookup in Hr' as [i Hi].
  destruct (Forall2_lookup_l _ _ _ _ _ HF Hi) as (p & Hp & [[-> _]|[_ Hbig]]).
  - exists i, r'. by split; [|split].
  - exfalso. destruct Hbig as (r'' & Hr'' & Hs'' & Hlt).
    eapply Forall_forall in Hall; [|exact Hr''].
    assert (row_max_val r'' <= v)%Q by (apply Hall; congruence).
    rewrite Hv in Hlt. lra.
Qed.

(** X18: the score takes a row's generation or the worst value 100, so
    on a table with at least one row, whose generations are integers of
    0..100 as [run_ea] gives them, every score is an integer of that
    range and never below the row's own generation. *)
Theorem performance_bounds (df : list row) :
  df ≠ [] →
  Forall (λ r, ∃ g, row_earliest_gen r = Some g ∧ (g ≤ 100)%nat) df →
  ∃ ps, performance df = Ok ps ∧
    Forall2 (λ r p, ∃ g s, row_earliest_gen r = Some g ∧ p = Some s ∧
                           (g ≤ s ≤ 100)%nat ∧ (s = g ∨ s = 100%nat)) df ps.
Proof.
  intros Hne Hg. rewrite performance_rows by done.
  apply mapM_outcome_Forall2.
  intros r Hr. eapply Forall_forall in Hg as (g & Hgr & Hle); [|exact Hr].
  pose proof (max_values_per_seed_spec df (row_seed r)) as Hspec.
  unfold calculate_performance.
  destruct (max_values_per_seed df !! row_seed r) as [v|].
  - destruct (Qltb (row_max_val r) v).
    + exists (Some 100%nat). split; [done|].
      exists g, 100%nat. repeat split; auto.
    + exists (Some g). rewrite Hgr. split; [done|].
      exists g, g. repeat split; auto.
  - exfalso. eapply Forall_forall in Hspec; [|exact Hr]. by apply Hspec.
Qed.

Lemma performance_bounds_witness :
  ∃ ps, performance near_tie = Ok ps ∧
    Forall2 (λ r p, ∃ g s, row_earliest_gen r = Some g ∧ p = Some s ∧
                           (g ≤ s ≤ 100)%nat ∧ (s = g ∨ s = 100%nat))
            near_tie ps.
Proof.
  apply (performance_bounds near_tie).
  - discriminate.
  - repeat constructor; eexists; (split; [reflexivity|]); lia.
Defined.

Example performance_near_tie :
  performance near_tie = Ok [Some 100%nat; Some 10%nat].
Proof. vm_compute. reflexivity. Qed.
